(** * DigitalCanvas: stroke capture, history and rendering

    A shallow embedding of [src/components/canvas/DigitalCanvas.tsx].

    Conventions of the embedding.
    - A JavaScript [number] that carries a coordinate, a width or the zoom
      scale is an exact rational ([Q]): no rounding, no NaN, no infinity.
      [Date.now()] is an integer number of milliseconds ([Z]) and is an
      input of the event that reads it.  [canvas.width] and [canvas.height]
      are integers ([Z]).
    - A React event handler is a function of the render snapshot it closes
      over (a [State]); it yields a [Run]: the state after the queued
      updates, the canvas calls it made, and whether the notebook's
      [strokes] array was replaced.  [dispatch] then plays the
      [useEffect(..., [strokes])] hook of the next render.
    - The 2D context is a trace of [CanvasOp]s; [paint] gives the trace its
      meaning as filled rectangles and stroked segments. *)

From Stdlib Require Import List ZArith QArith Qminmax Qround String Ascii Bool Lia Lqa.
From Stdlib Require Import DecimalString DecimalZ.
From Equations Require Import Equations.
Import ListNotations.

Local Open Scope string_scope.
Local Open Scope list_scope.
Local Open Scope Z_scope.
Local Open Scope Q_scope.

(** ** Data model *)

(** [{ x, y, pressure, timestamp }] *)
Module Point.
Record t := mk { x : Q; y : Q; pressure : Q; timestamp : Z }.
End Point.

(** [PenStroke]: [{ points, color, width, id }] *)
Module PenStroke.
Record t := mk { points : list Point.t; color : string; width : Q; id : string }.

Definition appendPoint (p : Point.t) (s : t) : t :=
  mk (points s ++ [p]) (color s) (width s) (id s).
End PenStroke.

(** [useState<"pen" | "finger" | "eraser" | "hand">] *)
Inductive Tool := pen | finger | eraser | hand.

Definition Tool_eqb (a b : Tool) : bool :=
  match a, b with
  | pen, pen | finger, finger | eraser, eraser | hand, hand => true
  | _, _ => false
  end.

(** ** The 2D canvas *)

Inductive CanvasOp :=
| SetFillStyle (c : string)
| FillRect (x y w h : Q)
| SetStrokeStyle (c : string)
| SetLineWidth (w : Q)
| SetLineCap (s : string)
| SetLineJoin (s : string)
| BeginPath
| MoveTo (x y : Q)
| LineTo (x y : Q)
| Stroke.

(** What [canvasRef.current] holds once the element is mounted: the raster
    size, the origin of [getBoundingClientRect()], whether
    [getContext("2d")] answers, and the size of [parentElement] if any. *)
Module Canvas.
Record t := mk {
  width : Z;
  height : Z;
  left : Q;
  top : Q;
  context2d : bool;
  parentElement : option (Z * Z)
}.

Definition resize (w h : Z) (c : t) : t :=
  mk w h (left c) (top c) (context2d c) (parentElement c).
End Canvas.

(** [canvasRef.current] together with [getContext("2d")]: the guard
    [if (!canvasRef.current) return; ... if (!ctx) return;] *)
Definition getContext (ref : option Canvas.t) : option Canvas.t :=
  match ref with
  | Some c => if Canvas.context2d c then Some c else None
  | None => None
  end.

(** The body of [for (let y = 40; y < height; y += 40)], from a given [y]. *)
Equations? gridFrom (w h y : Z) : list CanvasOp by wf (Z.to_nat (h - y)) lt :=
  gridFrom w h y with Z_lt_dec y h => {
    | left _ := [BeginPath; MoveTo 0 (inject_Z y); LineTo (inject_Z w) (inject_Z y); Stroke]
                  ++ gridFrom w h (y + 40)%Z;
    | right _ := [] }.
Proof. lia. Qed.

(** [drawStroke] on a mounted canvas. *)
Definition drawStrokeOps (stroke : PenStroke.t) : list CanvasOp :=
  match PenStroke.points stroke with
  | [] => []                                  (* stroke.points.length === 0 *)
  | p0 :: rest =>
      [SetStrokeStyle (PenStroke.color stroke);
       SetLineWidth (PenStroke.width stroke);
       SetLineCap "round";
       SetLineJoin "round";
       BeginPath;
       MoveTo (Point.x p0) (Point.y p0)]
      ++ map (fun p => LineTo (Point.x p) (Point.y p)) rest
      ++ [Stroke]
  end.

Definition drawStroke (ref : option Canvas.t) (stroke : PenStroke.t) : list CanvasOp :=
  match getContext ref with
  | None => []
  | Some _ => drawStrokeOps stroke
  end.

(** [redrawCanvas], given the [strokes] array of the closure it runs in. *)
Definition redrawCanvas (ref : option Canvas.t) (strokes : list PenStroke.t)
  : list CanvasOp :=
  match getContext ref with
  | None => []
  | Some c =>
      [SetFillStyle "#ffffff";
       FillRect 0 0 (inject_Z (Canvas.width c)) (inject_Z (Canvas.height c));
       SetStrokeStyle "#e5e7eb";
       SetLineWidth 1]
      ++ gridFrom (Canvas.width c) (Canvas.height c) 40
      ++ flat_map (drawStroke ref) strokes
  end.

Example gridFrom_100 :
  gridFrom 10 100 40 =
  [BeginPath; MoveTo 0 (inject_Z 40); LineTo (inject_Z 10) (inject_Z 40); Stroke;
   BeginPath; MoveTo 0 (inject_Z 80); LineTo (inject_Z 10) (inject_Z 80); Stroke].
Proof. reflexivity. Qed.

(** ** Component state *)

(** The callback handed to [PenDataInterpreter.setOnNewStroke]; [None] is
    [null]. *)
Inductive Callback := OnNewStroke.

Record State := mkState {
  strokes : list PenStroke.t;        (* useNotebook(): log of the active page *)
  redoStack : list PenStroke.t;
  isDrawing : bool;
  isErasing : bool;
  tool : Tool;
  color : string;
  lineWidth : Q;
  scale : Q;
  canvasRef : option Canvas.t;
  resizeListener : bool;             (* window "resize" listener installed *)
  penCallback : option Callback      (* the interpreter's callback slot *)
}.

(** The first render: every [useState] initial value, an empty page, and
    an element that may or may not be mounted yet. *)
Definition initialState (ref : option Canvas.t) : State :=
  mkState [] [] false false pen "#000000" 2 1 ref false None.

Definition withStrokes (l : list PenStroke.t) (s : State) : State :=
  mkState l (redoStack s) (isDrawing s) (isErasing s) (tool s) (color s)
          (lineWidth s) (scale s) (canvasRef s) (resizeListener s) (penCallback s).

Definition withRedoStack (l : list PenStroke.t) (s : State) : State :=
  mkState (strokes s) l (isDrawing s) (isErasing s) (tool s) (color s)
          (lineWidth s) (scale s) (canvasRef s) (resizeListener s) (penCallback s).

Definition withIsDrawing (b : bool) (s : State) : State :=
  mkState (strokes s) (redoStack s) b (isErasing s) (tool s) (color s)
          (lineWidth s) (scale s) (canvasRef s) (resizeListener s) (penCallback s).

Definition withIsErasing (b : bool) (s : State) : State :=
  mkState (strokes s) (redoStack s) (isDrawing s) b (tool s) (color s)
          (lineWidth s) (scale s) (canvasRef s) (resizeListener s) (penCallback s).

Definition withTool (t : Tool) (s : State) : State :=
  mkState (strokes s) (redoStack s) (isDrawing s) (isErasing s) t (color s)
          (lineWidth s) (scale s) (canvasRef s) (resizeListener s) (penCallback s).

Definition withColor (c : string) (s : State) : State :=
  mkState (strokes s) (redoStack s) (isDrawing s) (isErasing s) (tool s) c
          (lineWidth s) (scale s) (canvasRef s) (resizeListener s) (penCallback s).

Definition withLineWidth (w : Q) (s : State) : State :=
  mkState (strokes s) (redoStack s) (isDrawing s) (isErasing s) (tool s) (color s)
          w (scale s) (canvasRef s) (resizeListener s) (penCallback s).

Definition withScale (q : Q) (s : State) : State :=
  mkState (strokes s) (redoStack s) (isDrawing s) (isErasing s) (tool s) (color s)
          (lineWidth s) q (canvasRef s) (resizeListener s) (penCallback s).

Definition withCanvasRef (r : option Canvas.t) (s : State) : State :=
  mkState (strokes s) (redoStack s) (isDrawing s) (isErasing s) (tool s) (color s)
          (lineWidth s) (scale s) r (resizeListener s) (penCallback s).

Definition withResizeListener (b : bool) (s : State) : State :=
  mkState (strokes s) (redoStack s) (isDrawing s) (isErasing s) (tool s) (color s)
          (lineWidth s) (scale s) (canvasRef s) b (penCallback s).

Definition withPenCallback (cb : option Callback) (s : State) : State :=
  mkState (strokes s) (redoStack s) (isDrawing s) (isErasing s) (tool s) (color s)
          (lineWidth s) (scale s) (canvasRef s) (resizeListener s) cb.

(** ** Running a handler *)

(** What one handler invocation leaves behind: the state the queued updates
    lead to, the canvas calls made, and whether [strokes] was replaced. *)
Record Run := mkRun {
  next : State;
  painted : list CanvasOp;
  strokesChanged : bool
}.

Definition start (s : State) : Run := mkRun s [] false.

Definition update (f : State -> State) (r : Run) : Run :=
  mkRun (f (next r)) (painted r) (strokesChanged r).

Definition emit (ops : list CanvasOp) (r : Run) : Run :=
  mkRun (next r) (painted r ++ ops) (strokesChanged r).

(** Local [useState] setters.  [setRedoStack] and [setScale] are called
    with an updater function of the pending value. *)
Definition setRedoStack (f : list PenStroke.t -> list PenStroke.t) : Run -> Run :=
  update (fun s => withRedoStack (f (redoStack s)) s).
Definition setScale (f : Q -> Q) : Run -> Run :=
  update (fun s => withScale (f (scale s)) s).
Definition setIsDrawing (b : bool) : Run -> Run := update (withIsDrawing b).
Definition setIsErasing (b : bool) : Run -> Run := update (withIsErasing b).
Definition setTool (t : Tool) : Run -> Run := update (withTool t).
Definition setColor (c : string) : Run -> Run := update (withColor c).
Definition setLineWidth (w : Q) : Run -> Run := update (withLineWidth w).

(** Modelled from the spec: the notebook collaborator ([useNotebook], whose
    module is not part of the sources) gives read/write access to the
    active page's stroke log.  [addStroke] appends one stroke at the end,
    [updateStrokes] replaces the log by the array it is given, and
    [clearStrokes] empties it; each installs a new [strokes] array and none
    changes the identity of the current page. *)
Definition installStrokes (l : list PenStroke.t) (r : Run) : Run :=
  mkRun (withStrokes l (next r)) (painted r) true.
Definition addStroke (stroke : PenStroke.t) (r : Run) : Run :=
  installStrokes (strokes (next r) ++ [stroke]) r.
Definition updateStrokes (l : list PenStroke.t) (r : Run) : Run :=
  installStrokes l r.
Definition clearStrokes (r : Run) : Run :=
  installStrokes [] r.

(** Modelled from the spec: [PenDataInterpreter] (not part of the sources)
    keeps a single callback slot; [setOnNewStroke] overwrites it, with
    [null] releasing the registration. *)
Definition setOnNewStroke (cb : option Callback) : Run -> Run :=
  update (withPenCallback cb).

(** [Date.now().toString()] *)
Definition toString (n : Z) : string := NilZero.string_of_int (Z.to_int n).

Example toString_0 : toString 0 = "0".
Proof. reflexivity. Qed.
Example toString_neg : toString (-1700000000123) = "-1700000000123".
Proof. reflexivity. Qed.

(** [arr[arr.length - 1]]: [None] is [undefined]. *)
Definition lastOf {A} (l : list A) : option A := nth_error l (List.length l - 1).
(** [arr.slice(0, -1)] *)
Definition sliceInit {A} (l : list A) : list A := firstn (List.length l - 1) l.

Notation "r |> f" := (f r) (at level 45, left associativity, only parsing).

(** ** Event handlers

    Every handler reads the snapshot [st] of the render that created it and
    writes through the setters. *)

(** [(e.clientX - rect.left) / scale] *)
Definition toCanvas (client origin scale : Q) : Q := (client - origin) / scale.

(** [startDrawing]: [onMouseDown].  [now] and [now'] are the two readings of
    [Date.now()], for the point's timestamp and for the id. *)
Definition startDrawing (clientX clientY : Q) (now now' : Z) (st : State) : Run :=
  if Tool_eqb (tool st) hand then start st       (* Don't draw if in pan mode *)
  else
    match getContext (canvasRef st) with
    | None => start st
    | Some rect =>
        let x := toCanvas clientX (Canvas.left rect) (scale st) in
        let y := toCanvas clientY (Canvas.top rect) (scale st) in
        let newStroke :=
          PenStroke.mk [Point.mk x y 1 now]
                       (if isErasing st then "#ffffff" else color st)
                       (if isErasing st then lineWidth st * 3 else lineWidth st)
                       (toString now') in
        start st |> emit [BeginPath; MoveTo x y]
                 |> addStroke newStroke
                 |> setRedoStack (fun _ => [])    (* Clear redo stack on new drawing *)
                 |> setIsDrawing true
    end.

(** The tail of [draw] and [handleTouchMove]: [updatedStrokes = [...strokes]],
    then a [push] on its last element if there is one.  The pushed-to object
    is the one the log holds, so the log sees its last entry grow. *)
Definition pushToCurrentStroke (p : Point.t) (st : State) (r : Run) : Run :=
  match lastOf (strokes st) with
  | None => r
  | Some currentStroke =>
      r |> updateStrokes (sliceInit (strokes st) ++ [PenStroke.appendPoint p currentStroke])
  end.

(** [draw]: [onMouseMove] *)
Definition draw (clientX clientY : Q) (now : Z) (st : State) : Run :=
  if negb (isDrawing st) || Tool_eqb (tool st) hand then start st
  else
    match getContext (canvasRef st) with
    | None => start st
    | Some rect =>
        let x := toCanvas clientX (Canvas.left rect) (scale st) in
        let y := toCanvas clientY (Canvas.top rect) (scale st) in
        start st |> emit [SetStrokeStyle (if isErasing st then "#ffffff" else color st);
                          SetLineWidth (if isErasing st then lineWidth st * 3 else lineWidth st);
                          SetLineCap "round";
                          SetLineJoin "round";
                          LineTo x y;
                          Stroke]
                 |> pushToCurrentStroke (Point.mk x y 1 now) st
    end.

(** [handleTouchStart]: [onTouchStart], with [e.touches[0]]. *)
Definition handleTouchStart (clientX clientY : Q) (now now' : Z) (st : State) : Run :=
  if negb (Tool_eqb (tool st) finger) then start st
  else
    match getContext (canvasRef st) with
    | None => start st
    | Some rect =>
        let x := toCanvas clientX (Canvas.left rect) (scale st) in
        let y := toCanvas clientY (Canvas.top rect) (scale st) in
        let newStroke :=
          PenStroke.mk [Point.mk x y 1 now] (color st) (lineWidth st) (toString now') in
        start st |> emit [BeginPath; MoveTo x y]
                 |> addStroke newStroke
                 |> setRedoStack (fun _ => [])    (* Clear redo stack on new drawing *)
                 |> setIsDrawing true
    end.

(** [handleTouchMove]: [onTouchMove] *)
Definition handleTouchMove (clientX clientY : Q) (now : Z) (st : State) : Run :=
  if negb (isDrawing st) || negb (Tool_eqb (tool st) finger) then start st
  else
    match getContext (canvasRef st) with
    | None => start st
    | Some rect =>
        let x := toCanvas clientX (Canvas.left rect) (scale st) in
        let y := toCanvas clientY (Canvas.top rect) (scale st) in
        start st |> emit [SetStrokeStyle (color st);
                          SetLineWidth (lineWidth st);
                          SetLineCap "round";
                          SetLineJoin "round";
                          LineTo x y;
                          Stroke]
                 |> pushToCurrentStroke (Point.mk x y 1 now) st
    end.

Definition handleTouchEnd (st : State) : Run := start st |> setIsDrawing false.
Definition stopDrawing (st : State) : Run := start st |> setIsDrawing false.

(** [handleUndo]: Undo last stroke *)
Definition handleUndo (st : State) : Run :=
  if (List.length (strokes st) =? 0)%nat then start st
  else
    match lastOf (strokes st) with
    | None => start st                            (* not reached past the guard *)
    | Some lastStroke =>
        let newStrokes := sliceInit (strokes st) in
        start st |> updateStrokes newStrokes
                 |> setRedoStack (fun prev => prev ++ [lastStroke])
                 |> emit (redrawCanvas (canvasRef st) (strokes st))
    end.

(** [handleRedo]: Redo last undone stroke *)
Definition handleRedo (st : State) : Run :=
  if (List.length (redoStack st) =? 0)%nat then start st
  else
    match lastOf (redoStack st) with
    | None => start st                            (* not reached past the guard *)
    | Some strokeToRedo =>
        start st |> setRedoStack (fun prev => sliceInit prev)
                 |> updateStrokes (strokes st ++ [strokeToRedo])
                 |> emit (redrawCanvas (canvasRef st) (strokes st))
    end.

(** [Math.min(prev + 0.1, 3)] and [Math.max(prev - 0.1, 0.5)] *)
Definition zoomInScale (prev : Q) : Q := Qmin (prev + (1 # 10)) 3.
Definition zoomOutScale (prev : Q) : Q := Qmax (prev - (1 # 10)) (1 # 2).

Definition handleZoomIn (st : State) : Run := start st |> setScale zoomInScale.
Definition handleZoomOut (st : State) : Run := start st |> setScale zoomOutScale.

(** [handleToolChange] (the toast shown for [finger] is not state). *)
Definition handleToolChange (newTool : Tool) (st : State) : Run :=
  start st |> setTool newTool |> setIsErasing (Tool_eqb newTool eraser).

(** [handleClear] (the toast is not state). *)
Definition handleClear (st : State) : Run :=
  match canvasRef st with
  | None => start st
  | Some _ =>
      start st |> clearStrokes
               |> emit (redrawCanvas (canvasRef st) (strokes st))
  end.

(** [resizeCanvas], as defined inside the set-up effect. *)
Definition resizeCanvas (canvas : Canvas.t) (st : State) (r : Run) : Run :=
  match Canvas.parentElement canvas with
  | None => r
  | Some (w, h) =>
      let resized := Some (Canvas.resize w h canvas) in
      r |> update (withCanvasRef resized)
        |> emit (redrawCanvas resized (strokes st))
  end.

(** The first [useEffect]: "Set up canvas and draw existing strokes". *)
Definition setupEffect (st : State) : Run :=
  match getContext (canvasRef st) with
  | None => start st
  | Some canvas =>
      let r := start st |> resizeCanvas canvas st
                        |> update (withResizeListener true) in
      r |> emit (redrawCanvas (canvasRef (next r)) (strokes st))
        |> setOnNewStroke (Some OnNewStroke)
  end.

(** The clean-up the effect returns; there is one only if the effect got
    past its guards, which is when the resize listener was installed. *)
Definition cleanupEffect (st : State) : Run :=
  if resizeListener st then
    start st |> update (withResizeListener false)
             |> setOnNewStroke None
  else start st.

(** The window's "resize" event. *)
Definition onWindowResize (st : State) : Run :=
  if resizeListener st then
    match canvasRef st with
    | None => start st
    | Some canvas => start st |> resizeCanvas canvas st
    end
  else start st.

(** The callback registered with the pen feed:
    [(stroke) => { addStroke(stroke); drawStroke(stroke); }] *)
Definition onNewStroke (stroke : PenStroke.t) (st : State) : Run :=
  start st |> addStroke stroke
           |> emit (drawStroke (canvasRef st) stroke).

(** The pen feed delivering a stroke to whatever sits in its slot. *)
Definition penFeed (stroke : PenStroke.t) (st : State) : Run :=
  match penCallback st with
  | None => start st
  | Some OnNewStroke => onNewStroke stroke st
  end.

(** ** The component as a transition system

    An [Event] is one invocation of a handler, an effect or the pen feed's
    callback.  The toolbar disables the undo and redo buttons on an empty
    log or redo stack; the handlers check again, and [CmdUndo] and
    [CmdRedo] stand for the handlers. *)

Inductive Event :=
| MouseDown (clientX clientY : Q) (now now' : Z)
| MouseMove (clientX clientY : Q) (now : Z)
| MouseUp
| MouseLeave
| TouchStart (clientX clientY : Q) (now now' : Z)
| TouchMove (clientX clientY : Q) (now : Z)
| TouchEnd
| CmdUndo
| CmdRedo
| CmdZoomIn
| CmdZoomOut
| CmdTool (newTool : Tool)
| CmdClear
| PickColor (value : string)
| PickLineWidth (value : Q)
| PenFeed (stroke : PenStroke.t)
| WindowResize
| EffectSetup
| EffectCleanup.

Definition handle (e : Event) : State -> Run :=
  match e with
  | MouseDown cx cy now now' => startDrawing cx cy now now'
  | MouseMove cx cy now => draw cx cy now
  | MouseUp | MouseLeave => stopDrawing
  | TouchStart cx cy now now' => handleTouchStart cx cy now now'
  | TouchMove cx cy now => handleTouchMove cx cy now
  | TouchEnd => handleTouchEnd
  | CmdUndo => handleUndo
  | CmdRedo => handleRedo
  | CmdZoomIn => handleZoomIn
  | CmdZoomOut => handleZoomOut
  | CmdTool t => handleToolChange t
  | CmdClear => handleClear
  | PickColor c => fun st => start st |> setColor c
  | PickLineWidth w => fun st => start st |> setLineWidth w
  | PenFeed s => penFeed s
  | WindowResize => onWindowResize
  | EffectSetup => setupEffect
  | EffectCleanup => cleanupEffect
  end.

(** After the handler, the next render runs
    [useEffect(() => { redrawCanvas(); }, [strokes])] when [strokes] is a
    new array, now closing over the new log. *)
Definition strokesEffect (r : Run) : list CanvasOp :=
  if strokesChanged r
  then redrawCanvas (canvasRef (next r)) (strokes (next r))
  else [].

Definition dispatch (h : State -> Run) (st : State) : State * list CanvasOp :=
  let r := h st in (next r, painted r ++ strokesEffect r).

Definition step (e : Event) (st : State) : State * list CanvasOp :=
  dispatch (handle e) st.

(** The state after a sequence of events. *)
Fixpoint run (es : list Event) (st : State) : State :=
  match es with
  | [] => st
  | e :: es' => run es' (fst (step e st))
  end.

Inductive reachable : State -> Prop :=
| reachable_init ref : reachable (initialState ref)
| reachable_step e st : reachable st -> reachable (fst (step e st)).

(** ** Meaning of a canvas trace *)

Module Ctx.
(** The drawing state of a 2D context: styles, the segments of the
    current path, and the pen position. *)
Record t := mk {
  fillStyle : string;
  strokeStyle : string;
  lineWidth : Q;
  lineCap : string;
  lineJoin : string;
  path : list ((Q * Q) * (Q * Q));
  position : option (Q * Q)
}.

(** A fresh context, with the defaults of the canvas API. *)
Definition fresh : t := mk "#000000" "#000000" 1 "butt" "miter" [] None.
End Ctx.

(** What lands on the raster. *)
Inductive Mark :=
| Filled (style : string) (x y w h : Q)
| Segment (from to : Q * Q) (style : string) (width : Q) (cap join : string).

Definition paintOp (op : CanvasOp) (c : Ctx.t) : Ctx.t * list Mark :=
  let '(Ctx.mk fs ss lw lc lj path pos) := c in
  match op with
  | SetFillStyle s => (Ctx.mk s ss lw lc lj path pos, [])
  | FillRect x y w h => (c, [Filled fs x y w h])
  | SetStrokeStyle s => (Ctx.mk fs s lw lc lj path pos, [])
  | SetLineWidth w => (Ctx.mk fs ss w lc lj path pos, [])
  | SetLineCap s => (Ctx.mk fs ss lw s lj path pos, [])
  | SetLineJoin s => (Ctx.mk fs ss lw lc s path pos, [])
  | BeginPath => (Ctx.mk fs ss lw lc lj [] None, [])
  | MoveTo x y => (Ctx.mk fs ss lw lc lj path (Some (x, y)), [])
  | LineTo x y =>
      match pos with
      | Some p => (Ctx.mk fs ss lw lc lj (path ++ [(p, (x, y))]) (Some (x, y)), [])
      | None => (Ctx.mk fs ss lw lc lj path (Some (x, y)), [])
      end
  | Stroke => (c, map (fun s => Segment (fst s) (snd s) ss lw lc lj) path)
  end.

Fixpoint paintFrom (c : Ctx.t) (ops : list CanvasOp) : Ctx.t * list Mark :=
  match ops with
  | [] => (c, [])
  | op :: ops' =>
      let (c1, m1) := paintOp op c in
      let (c2, m2) := paintFrom c1 ops' in
      (c2, m1 ++ m2)
  end.

Definition paint (c : Ctx.t) (ops : list CanvasOp) : list Mark := snd (paintFrom c ops).

(** The pairs of neighbours of a list: [[a; b; c]] gives [[(a, b); (b, c)]]. *)
Fixpoint consecutive {A} (l : list A) : list (A * A) :=
  match l with
  | a :: (b :: _) as tl => (a, b) :: consecutive tl
  | _ => []
  end.

Definition at_ (p : Point.t) : Q * Q := (Point.x p, Point.y p).

(** One straight round-capped, round-joined segment per pair of
    consecutive points of the stroke. *)
Definition strokeMarks (s : PenStroke.t) : list Mark :=
  map (fun ab => Segment (at_ (fst ab)) (at_ (snd ab))
                         (PenStroke.color s) (PenStroke.width s) "round" "round")
      (consecutive (PenStroke.points s)).

(** The [k]-th ruling: a line across the canvas at height [40 * k], light
    gray and 1 wide; its cap and join are whatever the context [c] had. *)
Definition rulingMark (c : Ctx.t) (w : Z) (k : nat) : Mark :=
  Segment (0, inject_Z (40 * Z.of_nat k)) (inject_Z w, inject_Z (40 * Z.of_nat k))
          "#e5e7eb" 1 (Ctx.lineCap c) (Ctx.lineJoin c).

(** How many multiples of 40, from 40 on, lie strictly below [h]. *)
Definition rulings (h : Z) : nat := Z.to_nat ((h - 1) / 40).

(** * Properties *)

(** ** Lists: last element and initial segment *)

Lemma lastOf_snoc {A} (l : list A) (a : A) : lastOf (l ++ [a]) = Some a.
Proof.
  unfold lastOf. rewrite length_app. simpl.
  replace (List.length l + 1 - 1)%nat with (List.length l) by lia.
  rewrite nth_error_app2 by lia. rewrite Nat.sub_diag. reflexivity.
Qed.

Lemma sliceInit_snoc {A} (l : list A) (a : A) : sliceInit (l ++ [a]) = l.
Proof.
  unfold sliceInit. rewrite length_app. simpl.
  replace (List.length l + 1 - 1)%nat with (List.length l) by lia.
  rewrite firstn_app, Nat.sub_diag, firstn_all. simpl. apply app_nil_r.
Qed.

Lemma lastOf_nil {A} : lastOf (@nil A) = None.
Proof. reflexivity. Qed.

Lemma snoc_cases {A} (l : list A) : l = [] \/ exists l' a, l = l' ++ [a].
Proof.
  destruct l as [|x l]; [left; reflexivity | right].
  destruct (@exists_last _ (x :: l)) as [l' [b E]]; [discriminate | eauto].
Qed.

(** ** Undo and redo on the history *)

Lemma run_app (es es' : list Event) (st : State) :
  run (es ++ es') st = run es' (run es st).
Proof. revert st. induction es as [|e es IH]; intro st; simpl; auto. Qed.

Lemma repeat_add {A} (a : A) (n m : nat) : repeat a (n + m) = repeat a n ++ repeat a m.
Proof. induction n; simpl; congruence. Qed.

Lemma step_undo_nil (st : State) :
  strokes st = [] -> step CmdUndo st = (st, []).
Proof.
  intro E. unfold step, dispatch, handle, handleUndo. rewrite E. reflexivity.
Qed.

Lemma step_undo_snoc (st : State) (l : list PenStroke.t) (s : PenStroke.t) :
  strokes st = l ++ [s] ->
  step CmdUndo st =
    (withRedoStack (redoStack st ++ [s]) (withStrokes l st),
     redrawCanvas (canvasRef st) (l ++ [s]) ++ redrawCanvas (canvasRef st) l).
Proof.
  intro E. unfold step, dispatch, handle, handleUndo. rewrite E.
  rewrite lastOf_snoc, sliceInit_snoc.
  replace (List.length (l ++ [s]) =? 0)%nat with false; [reflexivity|].
  symmetry. apply Nat.eqb_neq. rewrite length_app. simpl. lia.
Qed.

Lemma step_redo_nil (st : State) :
  redoStack st = [] -> step CmdRedo st = (st, []).
Proof.
  intro E. unfold step, dispatch, handle, handleRedo. rewrite E. reflexivity.
Qed.

Lemma step_redo_snoc (st : State) (r : list PenStroke.t) (s : PenStroke.t) :
  redoStack st = r ++ [s] ->
  step CmdRedo st =
    (withRedoStack r (withStrokes (strokes st ++ [s]) st),
     redrawCanvas (canvasRef st) (strokes st)
       ++ redrawCanvas (canvasRef st) (strokes st ++ [s])).
Proof.
  intro E. unfold step, dispatch, handle, handleRedo. rewrite E.
  rewrite lastOf_snoc.
  replace (List.length (r ++ [s]) =? 0)%nat with false.
  - unfold strokesEffect, setRedoStack, updateStrokes, installStrokes, emit, update, start.
    simpl. rewrite E, sliceInit_snoc. reflexivity.
  - symmetry. apply Nat.eqb_neq. rewrite length_app. simpl. lia.
Qed.

(** The history part of a state, set in one go. *)
Definition withHistory (log redo : list PenStroke.t) (st : State) : State :=
  withRedoStack redo (withStrokes log st).

Lemma withHistory_same (st : State) : withHistory (strokes st) (redoStack st) st = st.
Proof. destruct st; reflexivity. Qed.

Lemma run_undo_nil (n : nat) (st : State) :
  strokes st = [] -> run (repeat CmdUndo n) st = st.
Proof.
  intro E. induction n as [|n IH]; cbn [run repeat]; [reflexivity|].
  rewrite step_undo_nil by exact E. exact IH.
Qed.

Lemma run_redo_nil (n : nat) (st : State) :
  redoStack st = [] -> run (repeat CmdRedo n) st = st.
Proof.
  intro E. induction n as [|n IH]; cbn [run repeat]; [reflexivity|].
  rewrite step_redo_nil by exact E. exact IH.
Qed.

(** Undoing as many times as the tail [l2] is long moves [l2], reversed, on
    top of the redo stack. *)
Lemma run_undo_tail (l2 l1 redo : list PenStroke.t) (st : State) :
  run (repeat CmdUndo (List.length l2)) (withHistory (l1 ++ l2) redo st)
  = withHistory l1 (redo ++ rev l2) st.
Proof.
  revert redo. induction l2 as [|s l2 IH] using rev_ind; intro redo.
  - cbn [List.length run repeat rev]. rewrite !app_nil_r. reflexivity.
  - rewrite length_app, Nat.add_comm. cbn [List.length Nat.add run repeat].
    rewrite (step_undo_snoc _ (l1 ++ l2) s) by (simpl; apply app_assoc).
    cbn [fst]. rewrite rev_app_distr. cbn [rev app].
    change (withRedoStack ?r (withStrokes ?l (withHistory _ _ st))) with (withHistory l r st).
    rewrite IH, <- app_assoc. reflexivity.
Qed.

(** Redoing as many times as the top [r2] of the redo stack is long appends
    [r2], reversed, to the log. *)
Lemma run_redo_top (r2 r1 log : list PenStroke.t) (st : State) :
  run (repeat CmdRedo (List.length r2)) (withHistory log (r1 ++ r2) st)
  = withHistory (log ++ rev r2) r1 st.
Proof.
  revert log. induction r2 as [|s r2 IH] using rev_ind; intro log.
  - cbn [List.length run repeat rev]. rewrite !app_nil_r. reflexivity.
  - rewrite length_app, Nat.add_comm. cbn [List.length Nat.add run repeat].
    rewrite (step_redo_snoc _ (r1 ++ r2) s) by (simpl; apply app_assoc).
    cbn [fst]. rewrite rev_app_distr. cbn [rev app].
    change (withRedoStack ?r (withStrokes ?l (withHistory _ _ st))) with (withHistory l r st).
    rewrite IH, <- app_assoc. reflexivity.
Qed.

Lemma strokes_withHistory (log redo : list PenStroke.t) (st : State) :
  strokes (withHistory log redo st) = log.
Proof. reflexivity. Qed.

Lemma undo_redo_surplus_history (n : nat) (log redo : list PenStroke.t) (st : State) :
  run (repeat CmdUndo n ++ repeat CmdRedo n) (withHistory log redo st)
  = run (repeat CmdRedo (n - List.length log)) (withHistory log redo st).
Proof.
  rewrite run_app.
  destruct (Nat.le_gt_cases n (List.length log)) as [Hle | Hgt].
  - (* the log is long enough: its last [n] strokes go and come back *)
    replace (n - List.length log)%nat with 0%nat by lia.
    cbn [repeat run].
    set (l1 := firstn (List.length log - n) log).
    set (l2 := skipn (List.length log - n) log).
    assert (El : log = l1 ++ l2) by (symmetry; apply firstn_skipn).
    assert (En : List.length l2 = n) by (unfold l2; rewrite length_skipn; lia).
    rewrite El, <- En, run_undo_tail.
    rewrite <- (length_rev l2), run_redo_top, rev_involutive.
    reflexivity.
  - (* the log is emptied and the remaining undos do nothing *)
    set (m := (n - List.length log)%nat).
    assert (Eu : repeat CmdUndo n = repeat CmdUndo (List.length log) ++ repeat CmdUndo m)
      by (rewrite <- repeat_add; f_equal; lia).
    assert (Er : repeat CmdRedo n = repeat CmdRedo (List.length (rev log)) ++ repeat CmdRedo m)
      by (rewrite <- repeat_add, length_rev; f_equal; lia).
    rewrite Eu, Er, !run_app.
    pose proof (run_undo_tail log [] redo st) as Hu. cbn [app] in Hu.
    rewrite Hu, run_undo_nil by apply strokes_withHistory.
    rewrite (run_redo_top (rev log) redo [] st), rev_involutive.
    reflexivity.
Qed.

(** [n] undos then [n] redos leave what the surplus redos, those beyond the
    length of the log, do to the state one started from. *)
Lemma undo_redo_surplus (n : nat) (st : State) :
  run (repeat CmdUndo n ++ repeat CmdRedo n) st
  = run (repeat CmdRedo (n - List.length (strokes st))) st.
Proof.
  rewrite <- (withHistory_same st) at 1 3.
  apply undo_redo_surplus_history.
Qed.

(** ** Fixtures *)

Definition demoCanvas : Canvas.t := Canvas.mk 800 600 0 0 true (Some (800, 600)%Z).

Definition p10_10 : Point.t := Point.mk 10 10 1 1000.
Definition p20_10 : Point.t := Point.mk 20 10 1 1016.
Definition p20_20 : Point.t := Point.mk 20 20 1 1032.

Definition strokeA : PenStroke.t := PenStroke.mk [p10_10; p20_10; p20_20] "#000000" 2 "1000".
Definition strokeB : PenStroke.t := PenStroke.mk [p20_10; p20_20] "#ff0000" 4 "2000".

(** A mounted component with a given history. *)
Definition mounted (log redo : list PenStroke.t) : State :=
  withHistory log redo (initialState (Some demoCanvas)).

(** A component whose element is not mounted, with a given history. *)
Definition unmounted (log redo : list PenStroke.t) : State :=
  withHistory log redo (initialState None).

(** One stroke drawn with the mouse and then undone: an empty log and a
    redo stack of one. *)
Definition drawnAndUndone : State :=
  run [EffectSetup; MouseDown 10 10 1000 1000; MouseMove 20 10 1016; MouseUp; CmdUndo]
      (initialState (Some demoCanvas)).

Example drawnAndUndone_history :
  strokes drawnAndUndone = [] /\ List.length (redoStack drawnAndUndone) = 1%nat.
Proof. vm_compute. auto. Qed.

(** Scenario A of the specification: press at (10, 10), drag to (20, 10) and
    to (20, 20), release. *)
Example scenario_drag :
  strokes (run [EffectSetup; MouseDown 10 10 1000 1000; MouseMove 20 10 1016;
                MouseMove 20 20 1032; MouseUp]
               (initialState (Some demoCanvas)))
  = [PenStroke.mk [Point.mk ((10 - 0) / 1) ((10 - 0) / 1) 1 1000;
                   Point.mk ((20 - 0) / 1) ((10 - 0) / 1) 1 1016;
                   Point.mk ((20 - 0) / 1) ((20 - 0) / 1) 1 1032]
                  "#000000" 2 "1000"].
Proof. reflexivity. Qed.

(** Scenario B: two strokes, undo, redo. *)
Example scenario_undo_redo :
  run [CmdUndo] (mounted [strokeA; strokeB] []) = mounted [strokeA] [strokeB]
  /\ run [CmdUndo; CmdRedo] (mounted [strokeA; strokeB] []) = mounted [strokeA; strokeB] [].
Proof. split; reflexivity. Qed.

(** A move without a press, and a press under the hand tool, leave the log
    alone. *)
Example scenario_ignored :
  strokes (run [EffectSetup; MouseMove 20 10 1016; CmdTool hand; MouseDown 10 10 1000 1000]
               (initialState (Some demoCanvas))) = [].
Proof. reflexivity. Qed.

Lemma reachable_run (es : list Event) (st : State) :
  reachable st -> reachable (run es st).
Proof.
  revert st. induction es as [|e es IH]; intros st H; cbn [run]; auto.
  apply IH. constructor. exact H.
Qed.

Lemma drawnAndUndone_reachable : reachable drawnAndUndone.
Proof. apply reachable_run. constructor. Qed.

(** ** C1: undo and redo as inverse operations *)

(** C1, as stated, fails: when the log holds fewer than [n] strokes and the
    redo stack is not empty, the surplus redos bring strokes into the log
    that were not there.  Here the log is empty, the redo stack holds one
    stroke, and one undo followed by one redo leaves that stroke in the
    log and the redo stack empty. *)
Lemma C1_undo_redo_not_inverse :
  strokes (run (repeat CmdUndo 1 ++ repeat CmdRedo 1) drawnAndUndone)
    <> strokes drawnAndUndone
  /\ redoStack (run (repeat CmdUndo 1 ++ repeat CmdRedo 1) drawnAndUndone)
    <> redoStack drawnAndUndone.
Proof. split; vm_compute; discriminate. Qed.

(** C1 (amended): [n] undo operations followed by [n] redo operations give
    back the very state they started from (the same strokes in the same
    order with the same points, the same redo stack, everything else
    untouched) whenever [n] does not exceed the length of the log, or the
    redo stack is empty to begin with. *)
Theorem C1_undo_redo_inverse (n : nat) (st : State) :
  (n <= List.length (strokes st))%nat \/ redoStack st = [] ->
  run (repeat CmdUndo n ++ repeat CmdRedo n) st = st.
Proof.
  intros [Hn | Hr]; rewrite undo_redo_surplus.
  - replace (n - List.length (strokes st))%nat with 0%nat by lia. reflexivity.
  - apply run_redo_nil. exact Hr.
Qed.

Lemma C1_undo_redo_inverse_witness :
  run (repeat CmdUndo 2 ++ repeat CmdRedo 2) (mounted [strokeA; strokeB] [strokeA])
    = mounted [strokeA; strokeB] [strokeA]
  /\ run (repeat CmdUndo 5 ++ repeat CmdRedo 5) (mounted [strokeA; strokeB] [])
    = mounted [strokeA; strokeB] [].
Proof.
  split.
  - apply (C1_undo_redo_inverse 2). left. simpl. lia.
  - apply (C1_undo_redo_inverse 5). right. reflexivity.
Defined.

(** ** C2: undo *)

(** C2: on an empty log undo changes nothing (log, redo stack, canvas); on a
    log [l ++ [s]] it leaves the log [l] and the redo stack with [s] pushed
    on top, everything else as it was, so the log is one shorter and the
    redo stack one longer, and the canvas is redrawn in full from the new
    log. *)
Theorem C2_undo (st : State) :
  (strokes st = [] -> step CmdUndo st = (st, []))
  /\ (forall l s, strokes st = l ++ [s] ->
        let st' := fst (step CmdUndo st) in
        st' = withHistory l (redoStack st ++ [s]) st
        /\ S (List.length (strokes st')) = List.length (strokes st)
        /\ List.length (redoStack st') = S (List.length (redoStack st))
        /\ snd (step CmdUndo st)
           = redrawCanvas (canvasRef st) (strokes st)
               ++ redrawCanvas (canvasRef st') (strokes st')).
Proof.
  split.
  - apply step_undo_nil.
  - intros l s E. rewrite (step_undo_snoc st l s E). cbn [fst snd].
    repeat split.
    + cbn. rewrite E, length_app. simpl. lia.
    + cbn. rewrite length_app. simpl. lia.
    + rewrite E. reflexivity.
Qed.

Lemma C2_undo_witness :
  step CmdUndo (mounted [] [strokeA]) = (mounted [] [strokeA], [])
  /\ fst (step CmdUndo (mounted [strokeA; strokeB] []))
     = mounted [strokeA] [strokeB].
Proof.
  split.
  - apply (proj1 (C2_undo (mounted [] [strokeA]))). reflexivity.
  - apply (proj2 (C2_undo (mounted [strokeA; strokeB] [])) [strokeA] strokeB).
    reflexivity.
Defined.

(** ** C3: redo *)

(** C3: on an empty redo stack redo changes nothing; on a redo stack
    [r ++ [s]] it leaves the redo stack [r] and the log with [s] appended at
    its end, everything else as it was, so the log is one longer and the
    redo stack one shorter, and the canvas is redrawn in full from the new
    log. *)
Theorem C3_redo (st : State) :
  (redoStack st = [] -> step CmdRedo st = (st, []))
  /\ (forall r s, redoStack st = r ++ [s] ->
        let st' := fst (step CmdRedo st) in
        st' = withHistory (strokes st ++ [s]) r st
        /\ List.length (strokes st') = S (List.length (strokes st))
        /\ S (List.length (redoStack st')) = List.length (redoStack st)
        /\ snd (step CmdRedo st)
           = redrawCanvas (canvasRef st) (strokes st)
               ++ redrawCanvas (canvasRef st') (strokes st')).
Proof.
  split.
  - apply step_redo_nil.
  - intros r s E. rewrite (step_redo_snoc st r s E). cbn [fst snd].
    repeat split.
    + cbn. rewrite length_app. simpl. lia.
    + cbn. rewrite E, length_app. simpl. lia.
Qed.

Lemma C3_redo_witness :
  step CmdRedo (mounted [strokeA] []) = (mounted [strokeA] [], [])
  /\ fst (step CmdRedo (mounted [strokeA] [strokeA; strokeB]))
     = mounted [strokeA; strokeB] [strokeA].
Proof.
  split.
  - apply (proj1 (C3_redo (mounted [strokeA] []))). reflexivity.
  - apply (proj2 (C3_redo (mounted [strokeA] [strokeA; strokeB])) [strokeA] strokeB).
    reflexivity.
Defined.

(** ** C4: clear *)

(** C4, as stated, fails: [handleClear] does not touch the redo stack, and
    it returns at once when the canvas element is not mounted.  With the
    element mounted the redo stack keeps its stroke; without it the log
    keeps its stroke too. *)
Lemma C4_clear_leaves_redo :
  redoStack (fst (step CmdClear (mounted [strokeA] [strokeB]))) = [strokeB]
  /\ strokes (fst (step CmdClear (unmounted [strokeA] [strokeB]))) = [strokeA].
Proof. split; reflexivity. Qed.

(** C4 (amended): with the canvas element mounted, whatever the log and
    the redo stack hold, clear leaves the log empty and the canvas is
    redrawn in full from the empty log; with no element mounted clear
    changes nothing. *)
Theorem C4_clear (st : State) :
  (canvasRef st = None -> step CmdClear st = (st, []))
  /\ (canvasRef st <> None ->
        let st' := fst (step CmdClear st) in
        strokes st' = []
        /\ snd (step CmdClear st)
           = redrawCanvas (canvasRef st) (strokes st)
               ++ redrawCanvas (canvasRef st') (strokes st')).
Proof.
  unfold step, dispatch, handle, handleClear.
  split; intro H.
  - rewrite H. reflexivity.
  - destruct (canvasRef st) eqn:E; [|congruence].
    cbn. rewrite E. auto.
Qed.

Lemma C4_clear_witness :
  step CmdClear (unmounted [strokeA] [strokeB]) = (unmounted [strokeA] [strokeB], [])
  /\ strokes (fst (step CmdClear (mounted [strokeA; strokeB] [strokeA]))) = [].
Proof.
  split.
  - apply (proj1 (C4_clear (unmounted [strokeA] [strokeB]))). reflexivity.
  - apply (proj2 (C4_clear (mounted [strokeA; strokeB] [strokeA]))). discriminate.
Defined.

(** ** Invariants of the reachable states *)

Ltac step_cases :=
  unfold step, dispatch, handle, startDrawing, draw, handleTouchStart,
    handleTouchMove, handleTouchEnd, stopDrawing, handleUndo, handleRedo,
    handleZoomIn, handleZoomOut, handleToolChange, handleClear, penFeed,
    onNewStroke, onWindowResize, setupEffect, cleanupEffect, resizeCanvas,
    pushToCurrentStroke;
  repeat match goal with
         | |- context [if ?b then _ else _] => destruct b eqn:?
         | |- context [match ?x with _ => _ end] =>
             match type of x with
             | option _ => destruct x eqn:?
             | prod _ _ => destruct x eqn:?
             | Callback => destruct x eqn:?
             end
         end.

(** [isErasing] is set, together with [tool], by [handleToolChange] only. *)
Definition toolConsistent (st : State) : Prop :=
  isErasing st = Tool_eqb (tool st) eraser.

Lemma step_toolConsistent (e : Event) (st : State) :
  toolConsistent st -> toolConsistent (fst (step e st)).
Proof.
  unfold toolConsistent. intro H.
  destruct e; step_cases; cbn; congruence.
Qed.

Lemma reachable_toolConsistent (st : State) : reachable st -> toolConsistent st.
Proof.
  induction 1 as [ref | e st _ IH].
  - reflexivity.
  - apply step_toolConsistent, IH.
Qed.

(** The pen feed holds the callback only while the clean-up is armed. *)
Definition feedGuarded (st : State) : Prop :=
  penCallback st = None \/ resizeListener st = true.

Lemma step_feedGuarded (e : Event) (st : State) :
  feedGuarded st -> feedGuarded (fst (step e st)).
Proof.
  unfold feedGuarded. intro H.
  destruct e; step_cases; cbn; intuition congruence.
Qed.

Lemma reachable_feedGuarded (st : State) : reachable st -> feedGuarded st.
Proof.
  induction 1 as [ref | e st _ IH].
  - left. reflexivity.
  - apply step_feedGuarded, IH.
Qed.

(** ** Beginning a stroke *)

(** The state [startDrawing] and [handleTouchStart] lead to once past
    their guards: the stroke appended, the redo stack emptied, drawing on. *)
Definition begun (stroke : PenStroke.t) (st : State) : State :=
  withIsDrawing true (withHistory (strokes st ++ [stroke]) [] st).

Lemma Tool_eqb_eq (a b : Tool) : Tool_eqb a b = true <-> a = b.
Proof. destruct a, b; simpl; split; congruence. Qed.

Lemma Tool_eqb_neq (a b : Tool) : Tool_eqb a b = false <-> a <> b.
Proof. destruct a, b; simpl; split; congruence. Qed.

Lemma step_mouseDown (st : State) (rect : Canvas.t) (cx cy : Q) (now now' : Z) :
  tool st <> hand -> getContext (canvasRef st) = Some rect ->
  fst (step (MouseDown cx cy now now') st)
  = begun (PenStroke.mk
             [Point.mk (toCanvas cx (Canvas.left rect) (scale st))
                       (toCanvas cy (Canvas.top rect) (scale st)) 1 now]
             (if isErasing st then "#ffffff" else color st)
             (if isErasing st then lineWidth st * 3 else lineWidth st)
             (toString now')) st.
Proof.
  intros Ht Hc. apply Tool_eqb_neq in Ht.
  unfold step, dispatch, handle, startDrawing. rewrite Ht, Hc. reflexivity.
Qed.

Lemma step_touchStart (st : State) (rect : Canvas.t) (cx cy : Q) (now now' : Z) :
  tool st = finger -> getContext (canvasRef st) = Some rect ->
  fst (step (TouchStart cx cy now now') st)
  = begun (PenStroke.mk
             [Point.mk (toCanvas cx (Canvas.left rect) (scale st))
                       (toCanvas cy (Canvas.top rect) (scale st)) 1 now]
             (color st) (lineWidth st) (toString now')) st.
Proof.
  intros Ht Hc.
  unfold step, dispatch, handle, handleTouchStart. rewrite Ht, Hc. reflexivity.
Qed.

Lemma step_mouseDown_hand (st : State) (cx cy : Q) (now now' : Z) :
  tool st = hand -> step (MouseDown cx cy now now') st = (st, []).
Proof.
  intro Ht. unfold step, dispatch, handle, startDrawing. rewrite Ht. reflexivity.
Qed.

Lemma step_touchStart_other (st : State) (cx cy : Q) (now now' : Z) :
  tool st <> finger -> step (TouchStart cx cy now now') st = (st, []).
Proof.
  intro Ht. apply Tool_eqb_neq in Ht.
  unfold step, dispatch, handle, handleTouchStart. rewrite Ht. reflexivity.
Qed.

Lemma Tool_eq_dec (a b : Tool) : {a = b} + {a <> b}.
Proof. decide equality. Qed.

(** ** C5: the stroke a pointer-down begins *)

(** C5: in any reachable state with a mounted canvas whose 2D context is
    available, a mouse-down the handler does not ignore (tool other than
    hand) and a touch-start it does not ignore (tool finger) append to the
    log one new stroke whose only point lies at
    [(client - origin) / scale] in both coordinates, with pressure 1 and
    the clock reading as timestamp, whose colour is the background white
    when the tool is the eraser and the active colour otherwise, and whose
    width is the active width times 3 when the tool is the eraser and the
    active width otherwise; and they leave the redo stack empty. *)
Theorem C5_pointer_down (st : State) (rect : Canvas.t) (cx cy : Q) (now now' : Z) :
  reachable st ->
  getContext (canvasRef st) = Some rect ->
  let newStroke :=
    PenStroke.mk
      [Point.mk ((cx - Canvas.left rect) / scale st)
                ((cy - Canvas.top rect) / scale st) 1 now]
      (if Tool_eqb (tool st) eraser then "#ffffff" else color st)
      (if Tool_eqb (tool st) eraser then lineWidth st * 3 else lineWidth st)
      (toString now') in
  (tool st <> hand ->
     strokes (fst (step (MouseDown cx cy now now') st)) = strokes st ++ [newStroke]
     /\ redoStack (fst (step (MouseDown cx cy now now') st)) = [])
  /\ (tool st = finger ->
     strokes (fst (step (TouchStart cx cy now now') st)) = strokes st ++ [newStroke]
     /\ redoStack (fst (step (TouchStart cx cy now now') st)) = []).
Proof.
  intros Hr Hc newStroke. subst newStroke.
  pose proof (reachable_toolConsistent st Hr) as Hi. unfold toolConsistent in Hi.
  split; intro Ht.
  - rewrite (step_mouseDown st rect cx cy now now' Ht Hc), Hi. split; reflexivity.
  - rewrite (step_touchStart st rect cx cy now now' Ht Hc), Ht. split; reflexivity.
Qed.

(** A mounted component after the set-up effect, tool switched to the eraser. *)
Definition eraserMode : State :=
  run [EffectSetup; CmdZoomIn; CmdTool eraser] (initialState (Some demoCanvas)).

(** The same with the finger tool. *)
Definition fingerMode : State :=
  run [EffectSetup; CmdTool finger] (initialState (Some demoCanvas)).

Lemma C5_pointer_down_witness :
  strokes (fst (step (MouseDown 33 22 1000 1001) eraserMode))
    = [PenStroke.mk [Point.mk ((33 - 0) / (1 + (1 # 10))) ((22 - 0) / (1 + (1 # 10))) 1 1000]
                    "#ffffff" (2 * 3) "1001"]
  /\ strokes (fst (step (TouchStart 33 22 1000 1001) fingerMode))
    = [PenStroke.mk [Point.mk ((33 - 0) / 1) ((22 - 0) / 1) 1 1000] "#000000" 2 "1001"].
Proof.
  split.
  - refine (proj1 (proj1 (C5_pointer_down eraserMode demoCanvas 33 22 1000 1001 _ _) _)).
    + apply reachable_run. constructor.
    + reflexivity.
    + discriminate.
  - refine (proj1 (proj2 (C5_pointer_down fingerMode demoCanvas 33 22 1000 1001 _ _) _)).
    + apply reachable_run. constructor.
    + reflexivity.
    + reflexivity.
Defined.

(** ** C6: which input begins a stroke under which tool *)

(** C6, as stated, fails: [startDrawing] ignores the mouse under the hand
    tool only, so with the finger tool selected a mouse-down begins a
    stroke although the tool is neither pen nor eraser. *)
Lemma C6_mouse_draws_with_finger_tool :
  tool fingerMode = finger
  /\ strokes fingerMode = []
  /\ List.length (strokes (fst (step (MouseDown 10 10 1000 1000) fingerMode))) = 1%nat.
Proof. repeat split. Qed.

(** C6 (amended): a mouse-down changes the log only when the tool is not
    hand (that is pen, eraser or finger) and a touch-start only when the
    tool is finger; under the hand tool both leave the state as it is.
    With a mounted canvas and its 2D context, a mouse-down under every
    tool but hand and a touch-start under finger do begin a stroke: the
    log grows by one. *)
Theorem C6_stroke_begins (st : State) (cx cy : Q) (now now' : Z) :
  (strokes (fst (step (MouseDown cx cy now now') st)) <> strokes st ->
     tool st = pen \/ tool st = eraser \/ tool st = finger)
  /\ (strokes (fst (step (TouchStart cx cy now now') st)) <> strokes st ->
     tool st = finger)
  /\ (tool st = hand ->
     step (MouseDown cx cy now now') st = (st, [])
     /\ step (TouchStart cx cy now now') st = (st, []))
  /\ (forall rect, getContext (canvasRef st) = Some rect ->
     (tool st <> hand ->
        List.length (strokes (fst (step (MouseDown cx cy now now') st)))
        = S (List.length (strokes st)))
     /\ (tool st = finger ->
        List.length (strokes (fst (step (TouchStart cx cy now now') st)))
        = S (List.length (strokes st)))).
Proof.
  repeat split.
  - intro H. destruct (tool st) eqn:Ht; auto.
    rewrite step_mouseDown_hand in H by exact Ht. contradiction H. reflexivity.
  - intro H. destruct (Tool_eq_dec (tool st) finger) as [|Hn]; [assumption|].
    rewrite step_touchStart_other in H by exact Hn. contradiction H. reflexivity.
  - apply step_mouseDown_hand. assumption.
  - apply step_touchStart_other. congruence.
  - intro Ht. rewrite (step_mouseDown st rect cx cy now now' Ht H).
    cbn. rewrite length_app. simpl. lia.
  - intro Ht. rewrite (step_touchStart st rect cx cy now now' Ht H).
    cbn. rewrite length_app. simpl. lia.
Qed.

Lemma C6_stroke_begins_witness :
  step (MouseDown 10 10 1000 1000) (fst (step (CmdTool hand) fingerMode))
    = (fst (step (CmdTool hand) fingerMode), [])
  /\ List.length (strokes (fst (step (TouchStart 10 10 1000 1000) fingerMode))) = 1%nat.
Proof.
  split.
  - apply (proj1 (proj1 (proj2 (proj2
      (C6_stroke_begins (fst (step (CmdTool hand) fingerMode)) 10 10 1000 1000))) eq_refl)).
  - apply (proj2 (proj2 (proj2 (proj2
      (C6_stroke_begins fingerMode 10 10 1000 1000))) demoCanvas eq_refl) eq_refl).
Defined.

(** ** C7: the pen feed *)

Lemma step_penFeed (st : State) (stroke : PenStroke.t) :
  penCallback st = Some OnNewStroke ->
  step (PenFeed stroke) st
  = (withStrokes (strokes st ++ [stroke]) st,
     drawStroke (canvasRef st) stroke
       ++ redrawCanvas (canvasRef st) (strokes st ++ [stroke])).
Proof.
  intro H. unfold step, dispatch, handle, penFeed. rewrite H. reflexivity.
Qed.

(** C7: while the component's callback is registered with the pen feed, a
    stroke the feed delivers is appended once at the end of the log, with
    nothing else in the state changed, the stroke is drawn and the canvas
    is then redrawn in full from the new log; and in every reachable state
    the clean-up of the set-up effect leaves the feed's callback slot
    null. *)
Theorem C7_pen_feed (st : State) (stroke : PenStroke.t) :
  reachable st ->
  (penCallback st = Some OnNewStroke ->
     let st' := fst (step (PenFeed stroke) st) in
     st' = withStrokes (strokes st ++ [stroke]) st
     /\ snd (step (PenFeed stroke) st)
        = drawStroke (canvasRef st) stroke ++ redrawCanvas (canvasRef st') (strokes st'))
  /\ penCallback (fst (step EffectCleanup st)) = None.
Proof.
  intro Hr. split.
  - intro H. rewrite (step_penFeed st stroke H). split; reflexivity.
  - destruct (reachable_feedGuarded st Hr) as [H | H];
      unfold step, dispatch, handle, cleanupEffect.
    + destruct (resizeListener st); cbn; auto.
    + rewrite H. reflexivity.
Qed.

(** A mounted component after the set-up effect. *)
Definition listening : State := run [EffectSetup] (initialState (Some demoCanvas)).

Lemma listening_reachable : reachable listening.
Proof. apply reachable_run. constructor. Qed.

Lemma C7_pen_feed_witness :
  strokes (fst (step (PenFeed strokeB) listening)) = [strokeB]
  /\ penCallback (fst (step EffectCleanup listening)) = None.
Proof.
  pose proof (C7_pen_feed _ strokeB listening_reachable) as [Hfeed Hclean].
  split.
  - rewrite (proj1 (Hfeed eq_refl)). reflexivity.
  - exact Hclean.
Defined.

(** ** C9: zoom *)

Lemma zoomInScale_cases (s : Q) :
  (s + (1 # 10) <= 3 -> zoomInScale s = s + (1 # 10))
  /\ (3 < s + (1 # 10) -> zoomInScale s = 3).
Proof.
  unfold zoomInScale, Qmin, GenericMinMax.gmin. split; intro H.
  - destruct (s + (1 # 10) ?= 3) eqn:E; try reflexivity.
    apply Qgt_alt in E. lra.
  - apply Qgt_alt in H. rewrite H. reflexivity.
Qed.

Lemma zoomOutScale_cases (s : Q) :
  ((1 # 2) <= s - (1 # 10) -> zoomOutScale s = s - (1 # 10))
  /\ (s - (1 # 10) < (1 # 2) -> zoomOutScale s = 1 # 2).
Proof.
  unfold zoomOutScale, Qmax, GenericMinMax.gmax. split; intro H.
  - destruct (s - (1 # 10) ?= 1 # 2) eqn:E; try reflexivity.
    apply Qlt_alt in E. lra.
  - destruct (s - (1 # 10) ?= 1 # 2) eqn:E; try reflexivity.
    + apply Qeq_alt in E. lra.
    + apply Qgt_alt in E. lra.
Qed.

Lemma zoomInScale_range (s : Q) :
  (1 # 2) <= s -> (1 # 2) <= zoomInScale s <= 3.
Proof.
  intro H. destruct (Qlt_le_dec 3 (s + (1 # 10))) as [L | L].
  - rewrite (proj2 (zoomInScale_cases s) L). lra.
  - rewrite (proj1 (zoomInScale_cases s) L). lra.
Qed.

Lemma zoomOutScale_range (s : Q) :
  s <= 3 -> (1 # 2) <= zoomOutScale s <= 3.
Proof.
  intro H. destruct (Qlt_le_dec (s - (1 # 10)) (1 # 2)) as [L | L].
  - rewrite (proj2 (zoomOutScale_cases s) L). lra.
  - rewrite (proj1 (zoomOutScale_cases s) L). lra.
Qed.

Definition scaleInRange (st : State) : Prop := (1 # 2) <= scale st <= 3.

Lemma step_scale (e : Event) (st : State) :
  scale (fst (step e st)) =
    match e with
    | CmdZoomIn => zoomInScale (scale st)
    | CmdZoomOut => zoomOutScale (scale st)
    | _ => scale st
    end.
Proof. destruct e; step_cases; reflexivity. Qed.

Lemma reachable_scaleInRange (st : State) : reachable st -> scaleInRange st.
Proof.
  unfold scaleInRange. induction 1 as [ref | e st _ IH].
  - simpl. lra.
  - rewrite step_scale. destruct e; try exact IH.
    + apply zoomInScale_range, IH.
    + apply zoomOutScale_range, IH.
Qed.

(** C9: in every reachable state the scale lies in [0.5, 3.0].  A zoom-in
    step sets it to the scale plus 0.1 when that does not exceed 3 and to 3
    otherwise; a zoom-out step sets it to the scale minus 0.1 when that is
    not below 0.5 and to 0.5 otherwise; either way the new scale lies in
    [0.5, 3.0] again, and the step changes nothing but the scale.  Whatever
    value it starts from, a zoom-in never ends above 3 and a zoom-out never
    ends below 0.5. *)
Theorem C9_zoom (st : State) :
  reachable st ->
  let s := scale st in
  (1 # 2) <= s <= 3
  /\ step CmdZoomIn st = (withScale (zoomInScale s) st, [])
  /\ step CmdZoomOut st = (withScale (zoomOutScale s) st, [])
  /\ (s + (1 # 10) <= 3 -> zoomInScale s = s + (1 # 10))
  /\ (3 < s + (1 # 10) -> zoomInScale s = 3)
  /\ ((1 # 2) <= s - (1 # 10) -> zoomOutScale s = s - (1 # 10))
  /\ (s - (1 # 10) < (1 # 2) -> zoomOutScale s = 1 # 2)
  /\ (1 # 2) <= zoomInScale s <= 3
  /\ (1 # 2) <= zoomOutScale s <= 3
  /\ (forall q, zoomInScale q <= 3 /\ (1 # 2) <= zoomOutScale q).
Proof.
  intros Hr s. pose proof (reachable_scaleInRange st Hr) as Hs.
  unfold scaleInRange in Hs. fold s in Hs.
  repeat match goal with |- _ /\ _ => split end;
    try reflexivity; try (apply Hs).
  - apply zoomInScale_cases.
  - apply zoomInScale_cases.
  - apply zoomOutScale_cases.
  - apply zoomOutScale_cases.
  - apply zoomInScale_range, Hs.
  - apply zoomInScale_range, Hs.
  - apply zoomOutScale_range, Hs.
  - apply zoomOutScale_range, Hs.
  - intro q. split; [apply Q.le_min_r | apply Q.le_max_r].
Qed.

(** Twenty-five zoom-in steps from the initial scale 1. *)
Definition zoomedIn : State :=
  run (repeat CmdZoomIn 25) (initialState (Some demoCanvas)).

Example zoomedIn_scale : scale zoomedIn = 3.
Proof. reflexivity. Qed.

Lemma C9_zoom_witness :
  scale (fst (step CmdZoomIn zoomedIn)) = 3
  /\ (1 # 2) <= scale (fst (step CmdZoomOut zoomedIn)) <= 3.
Proof.
  pose proof (C9_zoom zoomedIn (reachable_run _ _ (reachable_init _))) as H.
  cbv zeta in H.
  destruct H as (_ & Hin & Hout & _ & _ & _ & _ & _ & Hr & _).
  split.
  - rewrite Hin. reflexivity.
  - rewrite Hout. exact Hr.
Defined.

(** ** C10: stroke ids *)

Lemma to_int_proper (n : Z) : Z.to_int n <> Decimal.Pos Decimal.Nil /\ Z.to_int n <> Decimal.Neg Decimal.Nil.
Proof.
  destruct n as [|p|p]; simpl; split; try discriminate;
    intro H; injection H; apply DecimalPos.Unsigned.to_uint_nonnil.
Qed.

(** The decimal rendering tells integers apart. *)
Lemma toString_inj (a b : Z) : toString a = toString b -> a = b.
Proof.
  unfold toString. intro H.
  apply DecimalZ.to_int_inj.
  assert (E : Some (Z.to_int a) = Some (Z.to_int b)).
  { rewrite <- (NilZero.isi (Z.to_int a)) by apply to_int_proper.
    rewrite <- (NilZero.isi (Z.to_int b)) by apply to_int_proper.
    rewrite H. reflexivity. }
  injection E. auto.
Qed.

(** The clock reading a pointer-down event takes its id from. *)
Definition idClock (e : Event) : option Z :=
  match e with
  | MouseDown _ _ _ now' | TouchStart _ _ _ now' => Some now'
  | _ => None
  end.

Lemma snoc_not_self {A} (l : list A) (a : A) : l <> l ++ [a].
Proof.
  intro H. apply (f_equal (@List.length A)) in H.
  rewrite length_app in H. simpl in H. lia.
Qed.

Lemma pointerDown_id (e : Event) (st : State) (s : PenStroke.t) (t : Z) :
  idClock e = Some t ->
  strokes (fst (step e st)) = strokes st ++ [s] ->
  PenStroke.id s = toString t.
Proof.
  intros Hc Hs. destruct e; try discriminate Hc;
    simpl in Hc; injection Hc as <-.
  - destruct (Tool_eq_dec (tool st) hand) as [Ht | Ht].
    { rewrite step_mouseDown_hand in Hs by exact Ht. destruct (snoc_not_self _ _ Hs). }
    destruct (getContext (canvasRef st)) as [rect|] eqn:Hg.
    + rewrite (step_mouseDown st rect _ _ _ _ Ht Hg) in Hs.
      cbn in Hs. apply app_inv_head in Hs. injection Hs as <-. reflexivity.
    + exfalso. revert Hs. unfold step, dispatch, handle, startDrawing.
      rewrite Hg. destruct (Tool_eqb (tool st) hand); apply snoc_not_self.
  - destruct (Tool_eq_dec (tool st) finger) as [Ht | Ht].
    2:{ rewrite step_touchStart_other in Hs by exact Ht. destruct (snoc_not_self _ _ Hs). }
    destruct (getContext (canvasRef st)) as [rect|] eqn:Hg.
    + rewrite (step_touchStart st rect _ _ _ _ Ht Hg) in Hs.
      cbn in Hs. apply app_inv_head in Hs. injection Hs as <-. reflexivity.
    + exfalso. revert Hs. unfold step, dispatch, handle, handleTouchStart.
      rewrite Hg. destruct (negb (Tool_eqb (tool st) finger)); apply snoc_not_self.
Qed.

(** Two clicks that read the same millisecond, at different places. *)
Definition sameMillisecond : State :=
  run [EffectSetup;
       MouseDown 10 10 1000 1000; MouseUp;
       MouseDown 50 60 1000 1000; MouseUp]
      (initialState (Some demoCanvas)).

(** C10, as stated, fails: the id is the clock reading, so two strokes
    begun in the same millisecond, here at (10, 10) and at (50, 60), sit in
    the same log, differ, and carry the same id. *)
Lemma C10_same_clock_same_id :
  let s1 := PenStroke.mk [Point.mk ((10 - 0) / 1) ((10 - 0) / 1) 1 1000] "#000000" 2 "1000" in
  let s2 := PenStroke.mk [Point.mk ((50 - 0) / 1) ((60 - 0) / 1) 1 1000] "#000000" 2 "1000" in
  strokes sameMillisecond = [s1; s2]
  /\ s1 <> s2
  /\ PenStroke.id s1 = PenStroke.id s2.
Proof.
  cbv zeta. split; [reflexivity | split; [| reflexivity]].
  vm_compute. intro H. discriminate H.
Qed.

(** C10 (amended): a stroke that a mouse-down or a touch-start appends to
    the log has as id the decimal string of the clock reading taken for it,
    so two such strokes have the same id exactly when those clock readings
    are the same; a stroke the pen feed delivers is logged with the id it
    came with. *)
Theorem C10_stroke_ids (e1 e2 : Event) (st1 st2 : State) (s1 s2 : PenStroke.t) (t1 t2 : Z) :
  idClock e1 = Some t1 ->
  idClock e2 = Some t2 ->
  strokes (fst (step e1 st1)) = strokes st1 ++ [s1] ->
  strokes (fst (step e2 st2)) = strokes st2 ++ [s2] ->
  PenStroke.id s1 = toString t1
  /\ PenStroke.id s2 = toString t2
  /\ (PenStroke.id s1 = PenStroke.id s2 <-> t1 = t2)
  /\ (forall stroke, penCallback st1 = Some OnNewStroke ->
        strokes (fst (step (PenFeed stroke) st1)) = strokes st1 ++ [stroke]).
Proof.
  intros C1 C2 H1 H2.
  pose proof (pointerDown_id e1 st1 s1 t1 C1 H1) as I1.
  pose proof (pointerDown_id e2 st2 s2 t2 C2 H2) as I2.
  repeat split; auto.
  - rewrite I1, I2. apply toString_inj.
  - intros ->. congruence.
  - intros stroke Hc. rewrite (step_penFeed st1 stroke Hc). reflexivity.
Qed.

Lemma C10_stroke_ids_witness :
  ("1000" = "2000" <-> 1000%Z = 2000%Z).
Proof.
  refine (proj1 (proj2 (proj2
    (C10_stroke_ids (MouseDown 10 10 1000 1000) (TouchStart 50 60 2000 2000)
       listening fingerMode
       (PenStroke.mk [Point.mk ((10 - 0) / 1) ((10 - 0) / 1) 1 1000] "#000000" 2 "1000")
       (PenStroke.mk [Point.mk ((50 - 0) / 1) ((60 - 0) / 1) 1 2000] "#000000" 2 "2000")
       1000%Z 2000%Z _ _ _ _)))); reflexivity.
Defined.

(** ** Rendering *)

Lemma paintFrom_app (c : Ctx.t) (a b : list CanvasOp) :
  paintFrom c (a ++ b)
  = (fst (paintFrom (fst (paintFrom c a)) b),
     snd (paintFrom c a) ++ snd (paintFrom (fst (paintFrom c a)) b)).
Proof.
  revert c. induction a as [|op a IH]; intro c; cbn [app paintFrom].
  - cbn [fst snd app]. destruct (paintFrom c b). reflexivity.
  - destruct (paintOp op c) as [c1 m1]. rewrite IH.
    destruct (paintFrom c1 a) as [c2 m2]. cbn [fst snd].
    destruct (paintFrom c2 b) as [c3 m3]. cbn [fst snd].
    rewrite app_assoc. reflexivity.
Qed.

(** One pass of the body of the grid loop. *)
Definition rulingOps (w y : Z) : list CanvasOp :=
  [BeginPath; MoveTo 0 (inject_Z y); LineTo (inject_Z w) (inject_Z y); Stroke].

Lemma gridFrom_below (w h y : Z) :
  (y < h)%Z -> gridFrom w h y = rulingOps w y ++ gridFrom w h (y + 40).
Proof.
  intro H. rewrite gridFrom_equation_1. unfold gridFrom_unfold_clause_1.
  destruct (Z_lt_dec y h); [reflexivity | contradiction].
Qed.

Lemma gridFrom_done (w h y : Z) : (h <= y)%Z -> gridFrom w h y = [].
Proof.
  intro H. rewrite gridFrom_equation_1. unfold gridFrom_unfold_clause_1.
  destruct (Z_lt_dec y h); [lia | reflexivity].
Qed.

(** The loop draws the rulings at [40 * k], [40 * (k + 1)], ... for as many
    [k] as fit below [h]. *)
Lemma gridFrom_seq (w h : Z) (n k : nat) :
  Z.to_nat ((h - 40 * Z.of_nat k + 39) / 40) = n ->
  gridFrom w h (40 * Z.of_nat k)
  = flat_map (fun j => rulingOps w (40 * Z.of_nat j)) (seq k n).
Proof.
  revert k. induction n as [|n IH]; intros k E.
  - apply gridFrom_done.
    assert ((h - 40 * Z.of_nat k + 39) / 40 <= 0)%Z by lia.
    assert (h - 40 * Z.of_nat k + 39 < 40)%Z; [|lia].
    apply Z.nle_gt. intro Hge.
    assert (1 <= (h - 40 * Z.of_nat k + 39) / 40)%Z; [|lia].
    apply Z.div_le_lower_bound; lia.
  - assert (Hpos : (1 <= (h - 40 * Z.of_nat k + 39) / 40)%Z) by lia.
    assert (Hlt : (40 * Z.of_nat k < h)%Z).
    { apply Z.nle_gt. intro Hge.
      assert ((h - 40 * Z.of_nat k + 39) / 40 < 1)%Z; [|lia].
      apply Z.div_lt_upper_bound; lia. }
    rewrite gridFrom_below by exact Hlt.
    cbn [seq flat_map]. f_equal.
    replace (40 * Z.of_nat k + 40)%Z with (40 * Z.of_nat (S k))%Z by lia.
    apply IH.
    replace (h - 40 * Z.of_nat (S k) + 39)%Z
      with ((h - 40 * Z.of_nat k + 39) + (-1) * 40)%Z by lia.
    rewrite Z.div_add by lia. lia.
Qed.

Lemma gridFrom_rulings (w h : Z) :
  gridFrom w h 40 = flat_map (fun j => rulingOps w (40 * Z.of_nat j)) (seq 1 (rulings h)).
Proof.
  change 40%Z with (40 * Z.of_nat 1)%Z at 1.
  apply gridFrom_seq. unfold rulings. f_equal. f_equal. lia.
Qed.

(** The rulings are the multiples of 40, from 40 on, strictly below [h]. *)
Lemma rulings_spec (h : Z) (k : nat) :
  In k (seq 1 (rulings h)) <-> (1 <= k)%nat /\ (40 * Z.of_nat k < h)%Z.
Proof.
  rewrite in_seq. unfold rulings.
  destruct (Z_lt_dec h 1) as [Hs | Hs].
  - assert ((h - 1) / 40 < 0)%Z by (apply Z.div_lt_upper_bound; lia).
    split; intros [H1 H2]; lia.
  - assert (Hq : (0 <= (h - 1) / 40)%Z) by (apply Z.div_pos; lia).
    pose proof (Z.mul_div_le (h - 1) 40 ltac:(lia)) as Hlo.
    pose proof (Z.mul_succ_div_gt (h - 1) 40 ltac:(lia)) as Hhi.
    split; intros [H1 H2]; split; lia.
Qed.

(** Painting the rulings keeps the styles and leaves one segment each. *)
Lemma paintFrom_rulings (w : Z) (ks : list nat) (fs lc lj : string)
      (path : list ((Q * Q) * (Q * Q))) (pos : option (Q * Q)) :
  exists path' pos',
    paintFrom (Ctx.mk fs "#e5e7eb" 1 lc lj path pos)
              (flat_map (fun j => rulingOps w (40 * Z.of_nat j)) ks)
    = (Ctx.mk fs "#e5e7eb" 1 lc lj path' pos',
       map (fun k => Segment (0, inject_Z (40 * Z.of_nat k))
                             (inject_Z w, inject_Z (40 * Z.of_nat k))
                             "#e5e7eb" 1 lc lj) ks).
Proof.
  revert path pos. induction ks as [|k ks IH]; intros path pos.
  - exists path, pos. reflexivity.
  - cbn [flat_map map]. rewrite paintFrom_app.
    cbn [rulingOps paintFrom paintOp fst snd app map].
    destruct (IH [((0, inject_Z (40 * Z.of_nat k)), (inject_Z w, inject_Z (40 * Z.of_nat k)))]
                 (Some (inject_Z w, inject_Z (40 * Z.of_nat k)))) as (path' & pos' & E).
    exists path', pos'. rewrite E. reflexivity.
Qed.

(** The [lineTo] calls of a stroke extend the path by the segments between
    consecutive points. *)
Lemma paintFrom_lines (rest : list Point.t) (p : Point.t) (fs ss lc lj : string) (lw : Q)
      (path : list ((Q * Q) * (Q * Q))) :
  exists pos',
    paintFrom (Ctx.mk fs ss lw lc lj path (Some (at_ p)))
              (map (fun q => LineTo (Point.x q) (Point.y q)) rest)
    = (Ctx.mk fs ss lw lc lj
              (path ++ map (fun ab => (at_ (fst ab), at_ (snd ab))) (consecutive (p :: rest)))
              pos',
       []).
Proof.
  revert p path. induction rest as [|q rest IH]; intros p path.
  - exists (Some (at_ p)). cbn. rewrite app_nil_r. reflexivity.
  - destruct (IH q (path ++ [(at_ p, at_ q)])) as [pos' E].
    exists pos'. cbn [map paintFrom paintOp].
    change (Point.x q, Point.y q) with (at_ q). rewrite E.
    cbn [consecutive map fst snd app]. rewrite <- app_assoc. reflexivity.
Qed.

(** Whatever the context, [drawStroke] paints the stroke's own segments. *)
Lemma paint_drawStrokeOps (c : Ctx.t) (s : PenStroke.t) :
  snd (paintFrom c (drawStrokeOps s)) = strokeMarks s.
Proof.
  unfold drawStrokeOps, strokeMarks.
  destruct (PenStroke.points s) as [|p0 rest]; [reflexivity|].
  destruct c as [fs ss lw lc lj path pos].
  cbn [app paintFrom paintOp].
  change (Point.x p0, Point.y p0) with (at_ p0).
  rewrite paintFrom_app.
  destruct (paintFrom_lines rest p0 fs (PenStroke.color s) "round" "round"
                            (PenStroke.width s) []) as [pos' E].
  rewrite E. cbn [fst snd app paintFrom paintOp].
  rewrite app_nil_r, map_map. reflexivity.
Qed.

Lemma paint_strokes (log : list PenStroke.t) (c : Ctx.t) :
  snd (paintFrom c (flat_map drawStrokeOps log)) = flat_map strokeMarks log.
Proof.
  revert c. induction log as [|s log IH]; intro c; [reflexivity|].
  cbn [flat_map]. rewrite paintFrom_app. cbn [snd].
  rewrite paint_drawStrokeOps, IH. reflexivity.
Qed.

Lemma flat_map_drawStroke (ref : option Canvas.t) (canvas : Canvas.t) (log : list PenStroke.t) :
  getContext ref = Some canvas ->
  flat_map (drawStroke ref) log = flat_map drawStrokeOps log.
Proof.
  intro H. apply flat_map_ext. intro s. unfold drawStroke. rewrite H. reflexivity.
Qed.

(** ** C8: the full redraw *)

(** C8: on a mounted canvas with its 2D context, and from any drawing state
    the context may be in, a full redraw puts on the raster, in this order:
    one white rectangle over the whole canvas; one horizontal ruling,
    light gray and 1 wide, from the left edge to the right edge at each
    height [40 * k] with [k >= 1] and [40 * k] below the canvas height,
    top to bottom; then, stroke after stroke in log order, one straight
    segment with round caps and round joins, in the stroke's colour and
    width, between each two consecutive points of the stroke.  A stroke of
    two points is drawn as exactly one segment. *)
Theorem C8_full_redraw (ref : option Canvas.t) (canvas : Canvas.t)
        (log : list PenStroke.t) (c : Ctx.t) :
  getContext ref = Some canvas ->
  paint c (redrawCanvas ref log)
  = Filled "#ffffff" 0 0 (inject_Z (Canvas.width canvas)) (inject_Z (Canvas.height canvas))
      :: map (rulingMark c (Canvas.width canvas)) (seq 1 (rulings (Canvas.height canvas)))
      ++ flat_map strokeMarks log
  /\ (forall k, In k (seq 1 (rulings (Canvas.height canvas)))
                <-> (1 <= k)%nat /\ (40 * Z.of_nat k < Canvas.height canvas)%Z)
  /\ (forall s a b, PenStroke.points s = [a; b] ->
        paint c (drawStroke ref s)
        = [Segment (at_ a) (at_ b) (PenStroke.color s) (PenStroke.width s) "round" "round"]).
Proof.
  intro H. split; [|split].
  - unfold paint, redrawCanvas. rewrite H.
    rewrite (flat_map_drawStroke ref canvas log H), gridFrom_rulings.
    destruct c as [fs ss lw lc lj path pos].
    cbn [app paintFrom paintOp].
    rewrite paintFrom_app.
    destruct (paintFrom_rulings (Canvas.width canvas) (seq 1 (rulings (Canvas.height canvas)))
                                "#ffffff" lc lj path pos) as (path' & pos' & E).
    rewrite E. cbn [fst snd app]. rewrite paint_strokes. reflexivity.
  - apply rulings_spec.
  - intros s a b Hp. unfold paint, drawStroke. rewrite H, paint_drawStrokeOps.
    unfold strokeMarks. rewrite Hp. reflexivity.
Qed.

Lemma C8_full_redraw_witness :
  paint Ctx.fresh (redrawCanvas (Some (Canvas.mk 100 100 0 0 true None)) [strokeA; strokeB])
  = [Filled "#ffffff" 0 0 (inject_Z 100) (inject_Z 100);
     Segment (0, inject_Z 40) (inject_Z 100, inject_Z 40) "#e5e7eb" 1 "butt" "miter";
     Segment (0, inject_Z 80) (inject_Z 100, inject_Z 80) "#e5e7eb" 1 "butt" "miter";
     Segment (10, 10) (20, 10) "#000000" 2 "round" "round";
     Segment (20, 10) (20, 20) "#000000" 2 "round" "round";
     Segment (20, 10) (20, 20) "#ff0000" 4 "round" "round"].
Proof.
  apply (proj1 (C8_full_redraw (Some (Canvas.mk 100 100 0 0 true None))
                               (Canvas.mk 100 100 0 0 true None)
                               [strokeA; strokeB] Ctx.fresh eq_refl)).
Defined.

(** * Further properties of the canvas component *)

(** ** Pointer moves *)

(** The point a move at client position [(cx, cy)] adds. *)
Definition movedTo (rect : Canvas.t) (st : State) (cx cy : Q) (now : Z) : Point.t :=
  Point.mk (toCanvas cx (Canvas.left rect) (scale st))
           (toCanvas cy (Canvas.top rect) (scale st)) 1 now.

(** The canvas calls of [draw] before it touches the log. *)
Definition incrementalOps (st : State) (p : Point.t) : list CanvasOp :=
  [SetStrokeStyle (if isErasing st then "#ffffff" else color st);
   SetLineWidth (if isErasing st then lineWidth st * 3 else lineWidth st);
   SetLineCap "round";
   SetLineJoin "round";
   LineTo (Point.x p) (Point.y p);
   Stroke].

Lemma step_mouseMove (st : State) (rect : Canvas.t) (l : list PenStroke.t)
      (s : PenStroke.t) (cx cy : Q) (now : Z) :
  isDrawing st = true -> tool st <> hand ->
  getContext (canvasRef st) = Some rect ->
  strokes st = l ++ [s] ->
  step (MouseMove cx cy now) st
  = (withStrokes (l ++ [PenStroke.appendPoint (movedTo rect st cx cy now) s]) st,
     incrementalOps st (movedTo rect st cx cy now)
       ++ redrawCanvas (canvasRef st)
                       (l ++ [PenStroke.appendPoint (movedTo rect st cx cy now) s])).
Proof.
  intros Hd Ht Hc Hs. apply Tool_eqb_neq in Ht.
  unfold step, dispatch, handle, draw, pushToCurrentStroke.
  rewrite Hd, Ht, Hc, Hs, lastOf_snoc, sliceInit_snoc. reflexivity.
Qed.


Lemma step_move_idle (st : State) (cx cy : Q) (now : Z) :
  isDrawing st = false ->
  step (MouseMove cx cy now) st = (st, [])
  /\ step (TouchMove cx cy now) st = (st, []).
Proof.
  intro Hd. unfold step, dispatch, handle, draw, handleTouchMove.
  rewrite Hd. split; reflexivity.
Qed.


(** A drag in progress: [strokeA] pressed and not yet released. *)
Definition dragging : State :=
  withIsDrawing true (mounted [strokeB; strokeA] [strokeB]).


(** X2: releasing the pointer (mouse up, mouse leaving the canvas, touch
    end) only turns the drag off, and from then on a mouse move or a touch
    move changes nothing and paints nothing. *)
Theorem X2_release_freezes (st : State) (cx cy : Q) (now : Z) :
  let released := withIsDrawing false st in
  step MouseUp st = (released, [])
  /\ step MouseLeave st = (released, [])
  /\ step TouchEnd st = (released, [])
  /\ step (MouseMove cx cy now) released = (released, [])
  /\ step (TouchMove cx cy now) released = (released, []).
Proof.
  cbv zeta. repeat split; try reflexivity;
    apply (step_move_idle (withIsDrawing false st) cx cy now); reflexivity.
Qed.

(** ** A whole drag *)

(** The move events of a drag through the client positions [ms]. *)
Definition mouseMoves (ms : list (Q * Q * Z)) : list Event :=
  map (fun m => MouseMove (fst (fst m)) (snd (fst m)) (snd m)) ms.

Definition movedPoints (rect : Canvas.t) (st : State) (ms : list (Q * Q * Z)) : list Point.t :=
  map (fun m => movedTo rect st (fst (fst m)) (snd (fst m)) (snd m)) ms.

Lemma withStrokes_twice (l l' : list PenStroke.t) (st : State) :
  withStrokes l (withStrokes l' st) = withStrokes l st.
Proof. reflexivity. Qed.

Lemma run_mouseMoves (rect : Canvas.t) (ms : list (Q * Q * Z)) (st : State)
      (l : list PenStroke.t) (s : PenStroke.t) :
  isDrawing st = true -> tool st <> hand ->
  getContext (canvasRef st) = Some rect ->
  strokes st = l ++ [s] ->
  run (mouseMoves ms) st
  = withStrokes
      (l ++ [PenStroke.mk (PenStroke.points s ++ movedPoints rect st ms)
                          (PenStroke.color s) (PenStroke.width s) (PenStroke.id s)])
      st.
Proof.
  intros Hd Ht Hc. revert s.
  induction ms as [|[[cx cy] now] ms IH] using rev_ind; intros s Hs.
  - cbn [mouseMoves movedPoints map run]. rewrite app_nil_r.
    destruct s, st; cbn in *. unfold withStrokes; cbn. congruence.
  - unfold mouseMoves, movedPoints. rewrite !map_app, run_app.
    fold (mouseMoves ms). fold (movedPoints rect st ms).
    rewrite (IH s Hs). cbn [map run fst snd].
    set (s1 := PenStroke.mk (PenStroke.points s ++ movedPoints rect st ms)
                            (PenStroke.color s) (PenStroke.width s) (PenStroke.id s)).
    rewrite (step_mouseMove (withStrokes (l ++ [s1]) st) rect l s1 cx cy now
               Hd Ht Hc eq_refl).
    cbn [fst]. rewrite withStrokes_twice. unfold PenStroke.appendPoint, s1.
    cbn [PenStroke.points PenStroke.color PenStroke.width PenStroke.id].
    rewrite <- app_assoc. reflexivity.
Qed.

(** X3: with the canvas mounted and any tool but hand, a press followed by
    any number of moves and a release appends to the log exactly one stroke;
    its points are the press position and then the move positions, in the
    order of the events, all brought to canvas coordinates; the redo stack
    ends up empty and the drag is off. *)
Theorem X3_drag_makes_one_stroke (st : State) (rect : Canvas.t)
        (cx cy : Q) (now now' : Z) (ms : list (Q * Q * Z)) :
  tool st <> hand ->
  getContext (canvasRef st) = Some rect ->
  let pt := fun (x y : Q) (t : Z) =>
    Point.mk ((x - Canvas.left rect) / scale st) ((y - Canvas.top rect) / scale st) 1 t in
  let drawn :=
    PenStroke.mk (pt cx cy now :: map (fun m => pt (fst (fst m)) (snd (fst m)) (snd m)) ms)
                 (if isErasing st then "#ffffff" else color st)
                 (if isErasing st then lineWidth st * 3 else lineWidth st)
                 (toString now') in
  run (MouseDown cx cy now now' :: mouseMoves ms ++ [MouseUp]) st
  = withIsDrawing false (withHistory (strokes st ++ [drawn]) [] st).
Proof.
  intros Ht Hc pt drawn. cbn [run].
  rewrite (step_mouseDown st rect cx cy now now' Ht Hc), run_app.
  match goal with
  | |- context [begun ?s0 st] =>
      rewrite (run_mouseMoves rect ms (begun s0 st) (strokes st) s0 eq_refl Ht Hc eq_refl)
  end.
  reflexivity.
Qed.

Lemma X3_drag_makes_one_stroke_witness :
  strokes (run (MouseDown 10 10 1000 1000
                  :: mouseMoves [(20, 10, 1016%Z); (20, 20, 1032%Z)] ++ [MouseUp])
               (mounted [strokeB] [strokeA]))
  = [strokeB;
     PenStroke.mk [Point.mk ((10 - 0) / 1) ((10 - 0) / 1) 1 1000;
                   Point.mk ((20 - 0) / 1) ((10 - 0) / 1) 1 1016;
                   Point.mk ((20 - 0) / 1) ((20 - 0) / 1) 1 1032]
                  "#000000" 2 "1000"].
Proof.
  rewrite (X3_drag_makes_one_stroke (mounted [strokeB] [strokeA]) demoCanvas
             10 10 1000 1000 [(20, 10, 1016%Z); (20, 20, 1032%Z)]).
  - reflexivity.
  - discriminate.
  - reflexivity.
Defined.

(** ** Undo and redo keep every stroke *)

Lemma step_undo_keeps (st : State) :
  let st' := fst (step CmdUndo st) in
  st' = withHistory (strokes st') (redoStack st') st
  /\ strokes st' ++ rev (redoStack st') = strokes st ++ rev (redoStack st).
Proof.
  destruct (snoc_cases (strokes st)) as [E | (l & s & E)].
  - rewrite (step_undo_nil st E). cbn. rewrite withHistory_same. auto.
  - rewrite (step_undo_snoc st l s E). cbn. rewrite E, rev_app_distr. cbn.
    rewrite <- app_assoc. auto.
Qed.

Lemma step_redo_keeps (st : State) :
  let st' := fst (step CmdRedo st) in
  st' = withHistory (strokes st') (redoStack st') st
  /\ strokes st' ++ rev (redoStack st') = strokes st ++ rev (redoStack st).
Proof.
  destruct (snoc_cases (redoStack st)) as [E | (r & s & E)].
  - rewrite (step_redo_nil st E). cbn. rewrite withHistory_same. auto.
  - rewrite (step_redo_snoc st r s E). cbn. rewrite E, rev_app_distr. cbn.
    rewrite <- app_assoc. auto.
Qed.

Lemma withHistory_twice (l r l' r' : list PenStroke.t) (st : State) :
  withHistory l r (withHistory l' r' st) = withHistory l r st.
Proof. reflexivity. Qed.

(** X4: any sequence of undo and redo operations, in any order and number,
    only moves strokes between the end of the log and the top of the redo
    stack: the log followed by the reversed redo stack is the same list
    before and after, so no stroke is lost, duplicated or reordered, and
    nothing else in the state changes. *)
Theorem X4_undo_redo_keep_strokes (es : list Event) (st : State) :
  Forall (fun e => e = CmdUndo \/ e = CmdRedo) es ->
  strokes (run es st) ++ rev (redoStack (run es st))
    = strokes st ++ rev (redoStack st)
  /\ run es st = withHistory (strokes (run es st)) (redoStack (run es st)) st.
Proof.
  intro H. revert st. induction H as [|e es He _ IH]; intro st.
  - cbn [run]. rewrite withHistory_same. auto.
  - cbn [run]. destruct (IH (fst (step e st))) as [IH1 IH2].
    assert (Hs : fst (step e st)
                 = withHistory (strokes (fst (step e st))) (redoStack (fst (step e st))) st
                 /\ strokes (fst (step e st)) ++ rev (redoStack (fst (step e st)))
                    = strokes st ++ rev (redoStack st)).
    { destruct He as [-> | ->]; [apply step_undo_keeps | apply step_redo_keeps]. }
    destruct Hs as [Hs1 Hs2]. split.
    + rewrite IH1. exact Hs2.
    + set (st1 := fst (step e st)) in *. set (st2 := run es st1) in *.
      clearbody st2. clearbody st1.
      transitivity (withHistory (strokes st2) (redoStack st2) st1); [exact IH2|].
      rewrite Hs1. apply withHistory_twice.
Qed.

Lemma X4_undo_redo_keep_strokes_witness :
  strokes (run [CmdUndo; CmdUndo; CmdRedo; CmdUndo; CmdUndo; CmdRedo]
               (mounted [strokeA; strokeB] [strokeB]))
    ++ rev (redoStack (run [CmdUndo; CmdUndo; CmdRedo; CmdUndo; CmdUndo; CmdRedo]
                           (mounted [strokeA; strokeB] [strokeB])))
  = [strokeA; strokeB; strokeB].
Proof.
  apply (proj1 (X4_undo_redo_keep_strokes
                  [CmdUndo; CmdUndo; CmdRedo; CmdUndo; CmdUndo; CmdRedo]
                  (mounted [strokeA; strokeB] [strokeB])
                  ltac:(repeat (apply Forall_cons; [auto|]); apply Forall_nil))).
Defined.

(** ** The toolbar *)

(** [disabled={strokes.length === 0}] and [disabled={redoStack.length === 0}]
    of the undo and redo buttons. *)
Definition undoDisabled (st : State) : bool := (List.length (strokes st) =? 0)%nat.
Definition redoDisabled (st : State) : bool := (List.length (redoStack st) =? 0)%nat.

(** X9: the undo button is disabled exactly in the states in which
    [handleUndo] would change nothing and paint nothing, and the redo
    button exactly in those in which [handleRedo] would. *)
Theorem X9_disabled_iff_noop (st : State) :
  (undoDisabled st = true <-> step CmdUndo st = (st, []))
  /\ (redoDisabled st = true <-> step CmdRedo st = (st, [])).
Proof.
  unfold undoDisabled, redoDisabled. split; split.
  - intro H. apply Nat.eqb_eq, length_zero_iff_nil in H. apply step_undo_nil, H.
  - intro H. destruct (snoc_cases (strokes st)) as [E | (l & s & E)].
    + rewrite E. reflexivity.
    + rewrite (step_undo_snoc st l s E) in H.
      apply (f_equal (fun r => strokes (fst r))) in H. cbn in H.
      rewrite E in H. destruct (snoc_not_self _ _ H).
  - intro H. apply Nat.eqb_eq, length_zero_iff_nil in H. apply step_redo_nil, H.
  - intro H. destruct (snoc_cases (redoStack st)) as [E | (r & s & E)].
    + rewrite E. reflexivity.
    + rewrite (step_redo_snoc st r s E) in H.
      apply (f_equal (fun r => redoStack (fst r))) in H. cbn in H.
      rewrite E in H. destruct (snoc_not_self _ _ H).
Qed.

(** ** No stroke without points *)

Definition hasPoints (s : PenStroke.t) : Prop := PenStroke.points s <> [].

(** Every stroke of the log and of the redo stack has at least one point. *)
Definition allHavePoints (st : State) : Prop :=
  Forall hasPoints (strokes st) /\ Forall hasPoints (redoStack st).

Lemma Forall_sliceInit {A} (P : A -> Prop) (l : list A) :
  Forall P l -> Forall P (sliceInit l).
Proof.
  intro H. rewrite Forall_forall in *. intros a Ha. apply H.
  unfold sliceInit in Ha. rewrite <- (firstn_skipn (List.length l - 1) l).
  apply in_or_app. left. exact Ha.
Qed.

Lemma Forall_lastOf {A} (P : A -> Prop) (l : list A) (a : A) :
  Forall P l -> lastOf l = Some a -> P a.
Proof.
  intros H E. rewrite Forall_forall in H. apply H.
  unfold lastOf in E. eapply nth_error_In, E.
Qed.

Lemma Forall_snoc {A} (P : A -> Prop) (l : list A) (a : A) :
  Forall P l -> P a -> Forall P (l ++ [a]).
Proof. intros H Ha. apply Forall_app. auto. Qed.

Lemma hasPoints_appendPoint (p : Point.t) (s : PenStroke.t) :
  hasPoints (PenStroke.appendPoint p s).
Proof. unfold hasPoints. cbn. destruct (PenStroke.points s); discriminate. Qed.

Lemma step_allHavePoints (e : Event) (st : State) :
  (forall s, e = PenFeed s -> hasPoints s) ->
  allHavePoints st -> allHavePoints (fst (step e st)).
Proof.
  unfold allHavePoints. intros Hf [Hl Hr].
  assert (Hnew : forall pts c w i, @hasPoints (PenStroke.mk (pts :: nil) c w i))
    by (intros; unfold hasPoints; discriminate).
  destruct e; step_cases;
    repeat match goal with
           | H : lastOf ?l = Some ?a, HF : Forall hasPoints ?l |- _ =>
               pose proof (Forall_lastOf _ _ _ HF H); clear H
           end;
    cbn; split;
    eauto using Forall_sliceInit, Forall_snoc, hasPoints_appendPoint.
Qed.

(** X5: if the log and the redo stack hold only strokes with at least one
    point, and the pen feed delivers only such strokes, then after any
    sequence of events the log and the redo stack again hold only strokes
    with at least one point: nothing the component does itself creates or
    leaves a stroke without points. *)
Theorem X5_strokes_keep_points (es : list Event) (st : State) :
  (forall s, In (PenFeed s) es -> PenStroke.points s <> []) ->
  Forall (fun s => PenStroke.points s <> []) (strokes st) ->
  Forall (fun s => PenStroke.points s <> []) (redoStack st) ->
  Forall (fun s => PenStroke.points s <> []) (strokes (run es st))
  /\ Forall (fun s => PenStroke.points s <> []) (redoStack (run es st)).
Proof.
  revert st. induction es as [|e es IH]; intros st Hf Hl Hr; cbn [run]; [auto|].
  destruct (step_allHavePoints e st) as [Hl' Hr'].
  - intros s ->. apply Hf. left. reflexivity.
  - split; assumption.
  - apply IH; auto. intros s Hin. apply Hf. right. exact Hin.
Qed.

Lemma X5_strokes_keep_points_witness :
  Forall (fun s => PenStroke.points s <> [])
         (strokes (run [EffectSetup; MouseDown 10 10 1000 1000; PenFeed strokeB; CmdUndo]
                       (initialState (Some demoCanvas)))).
Proof.
  apply (X5_strokes_keep_points
           [EffectSetup; MouseDown 10 10 1000 1000; PenFeed strokeB; CmdUndo]
           (initialState (Some demoCanvas))).
  - intros s [H | [H | [H | [H | []]]]]; try discriminate H.
    injection H as <-. discriminate.
  - constructor.
  - constructor.
Defined.

(** ** The eraser flag *)

(** X11: in every reachable state the [isErasing] flag is on exactly when
    the selected tool is the eraser, so the colour and width chosen from
    the flag are those of the selected tool. *)
Theorem X11_eraser_flag_follows_tool (st : State) :
  reachable st -> (isErasing st = true <-> tool st = eraser).
Proof.
  intro H. rewrite (reachable_toolConsistent st H). apply Tool_eqb_eq.
Qed.

Lemma X11_eraser_flag_follows_tool_witness :
  isErasing (fst (step (CmdTool pen) eraserMode)) = true
  <-> tool (fst (step (CmdTool pen) eraserMode)) = eraser.
Proof.
  apply (X11_eraser_flag_follows_tool (fst (step (CmdTool pen) eraserMode))).
  apply reachable_step. apply reachable_run. constructor.
Defined.

(** ** The zoom label *)

(** [Math.round]: the nearest integer, halves going up. *)
Definition mathRound (q : Q) : Z := Qfloor (q + (1 # 2)).

(** [{Math.round(scale * 100)}%] *)
Definition zoomLabel (st : State) : Z := mathRound (scale st * 100).

(** The scale is a whole number of tenths, from 5 to 30 of them. *)
Definition scaleInTenths (st : State) : Prop :=
  exists n : Z, (5 <= n <= 30)%Z /\ scale st == inject_Z n * (1 # 10).

Lemma inject_Z_bounds (n a b : Z) :
  (a <= n <= b)%Z -> inject_Z a <= inject_Z n <= inject_Z b.
Proof. intros [H1 H2]. split; rewrite <- Zle_Qle; assumption. Qed.

Lemma zoomInScale_tenths (s : Q) (n : Z) :
  (5 <= n <= 30)%Z -> s == inject_Z n * (1 # 10) ->
  exists m : Z, (5 <= m <= 30)%Z /\ zoomInScale s == inject_Z m * (1 # 10).
Proof.
  intros Hn Hs. destruct (Z_lt_dec n 30) as [Hlt | Hge].
  - exists (n + 1)%Z. split; [lia|].
    pose proof (inject_Z_bounds n 5 29 ltac:(lia)) as Hb.
    change (inject_Z 5) with 5 in Hb. change (inject_Z 29) with 29 in Hb.
    rewrite (proj1 (zoomInScale_cases s)).
    + rewrite Hs, inject_Z_plus. change (inject_Z 1) with 1. field.
    + rewrite Hs. lra.
  - exists 30%Z. split; [lia|].
    assert (n = 30)%Z by lia. subst n.
    rewrite (proj2 (zoomInScale_cases s)); [reflexivity|].
    rewrite Hs. reflexivity.
Qed.

Lemma zoomOutScale_tenths (s : Q) (n : Z) :
  (5 <= n <= 30)%Z -> s == inject_Z n * (1 # 10) ->
  exists m : Z, (5 <= m <= 30)%Z /\ zoomOutScale s == inject_Z m * (1 # 10).
Proof.
  intros Hn Hs. destruct (Z_lt_dec 5 n) as [Hlt | Hge].
  - exists (n - 1)%Z. split; [lia|].
    pose proof (inject_Z_bounds n 6 30 ltac:(lia)) as Hb.
    change (inject_Z 6) with 6 in Hb. change (inject_Z 30) with 30 in Hb.
    rewrite (proj1 (zoomOutScale_cases s)).
    + rewrite Hs. replace (n - 1)%Z with (n + -1)%Z by lia.
      rewrite inject_Z_plus. change (inject_Z (-1)) with (- (1)). lra.
    + rewrite Hs. lra.
  - exists 5%Z. split; [lia|].
    assert (n = 5)%Z by lia. subst n.
    rewrite (proj2 (zoomOutScale_cases s)); [reflexivity|].
    rewrite Hs. reflexivity.
Qed.

Lemma reachable_scaleInTenths (st : State) : reachable st -> scaleInTenths st.
Proof.
  unfold scaleInTenths. induction 1 as [ref | e st _ IH].
  - exists 10%Z. split; [lia | reflexivity].
  - rewrite step_scale. destruct IH as (n & Hn & Hs).
    destruct e; try (exists n; split; assumption).
    + apply (zoomInScale_tenths _ n Hn Hs).
    + apply (zoomOutScale_tenths _ n Hn Hs).
Qed.

Lemma mathRound_whole (q : Q) (z : Z) : q == inject_Z z -> mathRound q = z.
Proof.
  intro H. unfold mathRound.
  rewrite (Qfloor_comp (q + (1 # 2)) (inject_Z z + (1 # 2))) by (rewrite H; reflexivity).
  unfold Qfloor, inject_Z, Qplus. cbn [Qnum Qden].
  rewrite Z.mul_1_r. change (Z.pos (1 * 2)) with 2%Z.
  symmetry. apply (Z.div_unique (z * 2 + 1 * 1) 2 z 1); lia.
Qed.

(** X10: in every reachable state the zoom label shows a whole multiple of
    ten per cent, from 50 to 300. *)
Theorem X10_zoom_label (st : State) :
  reachable st ->
  exists n : Z, (5 <= n <= 30)%Z /\ zoomLabel st = (10 * n)%Z.
Proof.
  intro H. destruct (reachable_scaleInTenths st H) as (n & Hn & Hs).
  exists n. split; [exact Hn|].
  unfold zoomLabel. apply mathRound_whole.
  rewrite Hs, inject_Z_mult. change (inject_Z 10) with 10. field.
Qed.

Lemma X10_zoom_label_witness :
  exists n : Z, (5 <= n <= 30)%Z
                /\ zoomLabel (run [CmdZoomOut; CmdZoomOut; CmdZoomIn] (initialState None)) = (10 * n)%Z.
Proof.
  apply (X10_zoom_label (run [CmdZoomOut; CmdZoomOut; CmdZoomIn] (initialState None))).
  apply reachable_run. constructor.
Defined.

Example zoomLabel_after_zooming :
  zoomLabel (run [CmdZoomOut; CmdZoomOut; CmdZoomIn] (initialState None)) = 90%Z.
Proof. reflexivity. Qed.

(** ** The pen feed and the life cycle of the component *)

(** X12: in every reachable state, once the clean-up of the set-up effect
    has run, a stroke delivered by the pen feed and a resize of the window
    are both ignored: they change nothing and paint nothing. *)
Theorem X12_cleanup_silences_feed (st : State) (stroke : PenStroke.t) :
  reachable st ->
  let st' := fst (step EffectCleanup st) in
  penCallback st' = None
  /\ resizeListener st' = false
  /\ step (PenFeed stroke) st' = (st', [])
  /\ step WindowResize st' = (st', []).
Proof.
  intros Hr st'.
  assert (H : penCallback st' = None /\ resizeListener st' = false).
  { subst st'. unfold step, dispatch, handle, cleanupEffect.
    destruct (reachable_feedGuarded st Hr) as [H | H].
    - destruct (resizeListener st) eqn:E; cbn; auto.
    - rewrite H. cbn. auto. }
  destruct H as [Hp Hl]. repeat split; try assumption.
  - unfold step, dispatch, handle, penFeed. rewrite Hp. reflexivity.
  - unfold step, dispatch, handle, onWindowResize. rewrite Hl. reflexivity.
Qed.

Lemma X12_cleanup_silences_feed_witness :
  step (PenFeed strokeB) (fst (step EffectCleanup listening))
  = (fst (step EffectCleanup listening), []).
Proof.
  apply (X12_cleanup_silences_feed listening strokeB listening_reachable).
Defined.

(** The component before its canvas element exists. *)
Definition inert (st : State) : Prop :=
  canvasRef st = None /\ strokes st = [] /\ redoStack st = []
  /\ penCallback st = None /\ resizeListener st = false.

Lemma step_inert (e : Event) (st : State) :
  inert st -> inert (fst (step e st)) /\ snd (step e st) = [].
Proof.
  unfold inert. intros (Hc & Hl & Hr & Hp & Hw).
  destruct e; unfold step, dispatch, handle, startDrawing, draw, handleTouchStart,
    handleTouchMove, handleTouchEnd, stopDrawing, handleUndo, handleRedo,
    handleZoomIn, handleZoomOut, handleToolChange, handleClear, penFeed,
    onWindowResize, setupEffect, cleanupEffect;
    rewrite ?Hc, ?Hl, ?Hr, ?Hp, ?Hw; cbn;
    repeat match goal with
           | |- context [if ?b then _ else _] => destruct b
           end; cbn; auto 10.
Qed.

(** X14: as long as the canvas element is not mounted, whatever events
    arrive (presses, moves, undo, redo, clear, pen strokes, the set-up
    effect), the log and the redo stack stay empty, the pen feed holds no
    callback, and nothing is painted. *)
Theorem X14_nothing_without_canvas (es : list Event) (e : Event) :
  let st := run es (initialState None) in
  strokes st = [] /\ redoStack st = [] /\ penCallback st = None
  /\ snd (step e st) = [].
Proof.
  cbv zeta.
  assert (H : inert (run es (initialState None))).
  { assert (H0 : inert (initialState None)) by (repeat split).
    revert H0. generalize (initialState None).
    induction es as [|e' es IH]; intros st H0; cbn [run]; [exact H0|].
    apply IH. apply step_inert, H0. }
  pose proof (step_inert e _ H) as [_ Hp].
  destruct H as (_ & Hl & Hr & Hc & _). auto.
Qed.

(** X15: a mouse move extends whatever stroke is last in the log.  If the
    pen feed delivers a stroke [f] while a mouse drag is on, the next move
    adds its point to [f], and the stroke [s] the drag began gets none. *)
Theorem X15_feed_during_drag (st : State) (rect : Canvas.t) (l : list PenStroke.t)
        (s f : PenStroke.t) (cx cy : Q) (now : Z) :
  isDrawing st = true -> tool st <> hand ->
  getContext (canvasRef st) = Some rect ->
  penCallback st = Some OnNewStroke ->
  strokes st = l ++ [s] ->
  let p := Point.mk ((cx - Canvas.left rect) / scale st)
                    ((cy - Canvas.top rect) / scale st) 1 now in
  strokes (run [PenFeed f; MouseMove cx cy now] st)
  = l ++ [s; PenStroke.mk (PenStroke.points f ++ [p]) (PenStroke.color f)
                          (PenStroke.width f) (PenStroke.id f)].
Proof.
  intros Hd Ht Hc Hp Hs p. cbn [run].
  rewrite (step_penFeed st f Hp). cbn [fst].
  rewrite (step_mouseMove (withStrokes (strokes st ++ [f]) st) rect (strokes st) f cx cy now
             Hd Ht Hc eq_refl).
  cbn. rewrite Hs, <- app_assoc. reflexivity.
Qed.

(** A drag in progress on a component that listens to the pen feed. *)
Definition draggingAndListening : State :=
  run [EffectSetup; MouseDown 10 10 1000 1000] (initialState (Some demoCanvas)).

Lemma X15_feed_during_drag_witness :
  strokes (run [PenFeed strokeB; MouseMove 30 30 1016] draggingAndListening)
  = [PenStroke.mk [Point.mk ((10 - 0) / 1) ((10 - 0) / 1) 1 1000] "#000000" 2 "1000";
     PenStroke.mk [p20_10; p20_20; Point.mk ((30 - 0) / 1) ((30 - 0) / 1) 1 1016]
                  "#ff0000" 4 "2000"].
Proof.
  refine (X15_feed_during_drag draggingAndListening demoCanvas []
            (PenStroke.mk [Point.mk ((10 - 0) / 1) ((10 - 0) / 1) 1 1000] "#000000" 2 "1000")
            strokeB 30 30 1016 eq_refl _ eq_refl eq_refl eq_refl).
  discriminate.
Defined.

(** ** The drawing state a redraw leaves behind *)

Definition segmentBetween (ab : Point.t * Point.t) : (Q * Q) * (Q * Q) :=
  (at_ (fst ab), at_ (snd ab)).

Lemma last_cons_default {A} (l : list A) (a d : A) : last (a :: l) d = last l a.
Proof.
  revert a d. induction l as [|b l IH]; intros a d; [reflexivity|].
  change (last (a :: b :: l) d) with (last (b :: l) d).
  rewrite (IH b d), (IH b a). reflexivity.
Qed.

Lemma paintFrom_lines_end (rest : list Point.t) (p : Point.t) (fs ss lc lj : string) (lw : Q)
      (path : list ((Q * Q) * (Q * Q))) :
  paintFrom (Ctx.mk fs ss lw lc lj path (Some (at_ p)))
            (map (fun q => LineTo (Point.x q) (Point.y q)) rest)
  = (Ctx.mk fs ss lw lc lj
            (path ++ map segmentBetween (consecutive (p :: rest)))
            (Some (at_ (last rest p))),
     []).
Proof.
  revert p path. induction rest as [|q rest IH]; intros p path.
  - cbn. rewrite app_nil_r. reflexivity.
  - cbn [map paintFrom paintOp].
    change (Point.x q, Point.y q) with (at_ q). rewrite (IH q).
    rewrite (last_cons_default rest q p).
    cbn [consecutive map app]. rewrite <- app_assoc. reflexivity.
Qed.

(** After [drawStroke] of a stroke with points the context holds that
    stroke's style, its segments as the current path, and its last point as
    the pen position. *)
Lemma ctxAfter_drawStrokeOps (c : Ctx.t) (s : PenStroke.t) (p0 : Point.t) (rest : list Point.t) :
  PenStroke.points s = p0 :: rest ->
  fst (paintFrom c (drawStrokeOps s))
  = Ctx.mk (Ctx.fillStyle c) (PenStroke.color s) (PenStroke.width s) "round" "round"
           (map segmentBetween (consecutive (p0 :: rest)))
           (Some (at_ (last rest p0))).
Proof.
  intro E. unfold drawStrokeOps. rewrite E.
  destruct c as [fs ss lw lc lj path pos].
  cbn [app paintFrom paintOp].
  change (Point.x p0, Point.y p0) with (at_ p0).
  rewrite paintFrom_app, paintFrom_lines_end. reflexivity.
Qed.

Lemma ctxAfter_drawStrokeOps_empty (c : Ctx.t) (s : PenStroke.t) :
  PenStroke.points s = [] -> fst (paintFrom c (drawStrokeOps s)) = c.
Proof. intro E. unfold drawStrokeOps. rewrite E. reflexivity. Qed.

(** [true] when the stroke has a point, so that [drawStroke] draws it. *)
Definition drawn (s : PenStroke.t) : bool :=
  match PenStroke.points s with [] => false | _ :: _ => true end.

(** The cap (or join) in force after the strokes of [log] were drawn, when
    it was [before]. *)
Definition roundAfter (log : list PenStroke.t) (before : string) : string :=
  if existsb drawn log then "round" else before.

Lemma capJoin_after_strokes (log : list PenStroke.t) (c : Ctx.t) :
  Ctx.lineCap (fst (paintFrom c (flat_map drawStrokeOps log))) = roundAfter log (Ctx.lineCap c)
  /\ Ctx.lineJoin (fst (paintFrom c (flat_map drawStrokeOps log))) = roundAfter log (Ctx.lineJoin c).
Proof.
  unfold roundAfter. revert c. induction log as [|s log IH]; intro c; [split; reflexivity|].
  cbn [flat_map existsb]. rewrite paintFrom_app. cbn [fst].
  destruct (IH (fst (paintFrom c (drawStrokeOps s)))) as [IHc IHj]. rewrite IHc, IHj.
  destruct (PenStroke.points s) as [|p0 rest] eqn:E.
  - assert (Hd : drawn s = false) by (unfold drawn; rewrite E; reflexivity).
    rewrite Hd, (ctxAfter_drawStrokeOps_empty c s E). split; reflexivity.
  - assert (Hd : drawn s = true) by (unfold drawn; rewrite E; reflexivity).
    rewrite Hd, (ctxAfter_drawStrokeOps c s p0 rest E). cbn.
    destruct (existsb drawn log); split; reflexivity.
Qed.

Lemma fillStyle_after_strokes (log : list PenStroke.t) (c : Ctx.t) :
  Ctx.fillStyle (fst (paintFrom c (flat_map drawStrokeOps log))) = Ctx.fillStyle c.
Proof.
  revert c. induction log as [|s log IH]; intro c; [reflexivity|].
  cbn [flat_map]. rewrite paintFrom_app. cbn [fst]. rewrite IH.
  destruct (PenStroke.points s) as [|p0 rest] eqn:E.
  - rewrite (ctxAfter_drawStrokeOps_empty c s E). reflexivity.
  - rewrite (ctxAfter_drawStrokeOps c s p0 rest E). reflexivity.
Qed.

(** The marks of a full redraw, from any context (the statement of the
    rendering theorem, for use below). *)
Lemma paint_redrawCanvas (ref : option Canvas.t) (canvas : Canvas.t)
      (log : list PenStroke.t) (c : Ctx.t) :
  getContext ref = Some canvas ->
  paint c (redrawCanvas ref log)
  = Filled "#ffffff" 0 0 (inject_Z (Canvas.width canvas)) (inject_Z (Canvas.height canvas))
      :: map (rulingMark c (Canvas.width canvas)) (seq 1 (rulings (Canvas.height canvas)))
      ++ flat_map strokeMarks log.
Proof.
  intro H. unfold paint, redrawCanvas. rewrite H.
  rewrite (flat_map_drawStroke ref canvas log H), gridFrom_rulings.
  destruct c as [fs ss lw lc lj path pos].
  cbn [app paintFrom paintOp]. rewrite paintFrom_app.
  destruct (paintFrom_rulings (Canvas.width canvas) (seq 1 (rulings (Canvas.height canvas)))
                              "#ffffff" lc lj path pos) as (path' & pos' & E).
  rewrite E. cbn [fst snd app]. rewrite paint_strokes. reflexivity.
Qed.

(** The context a full redraw leaves: the cap and join, and, when the last
    stroke of the log has points, the whole of it. *)
Lemma ctxAfter_redrawCanvas (ref : option Canvas.t) (canvas : Canvas.t)
      (log : list PenStroke.t) (c : Ctx.t) :
  getContext ref = Some canvas ->
  Ctx.lineCap (fst (paintFrom c (redrawCanvas ref log))) = roundAfter log (Ctx.lineCap c)
  /\ Ctx.lineJoin (fst (paintFrom c (redrawCanvas ref log))) = roundAfter log (Ctx.lineJoin c)
  /\ (forall l s p0 rest, log = l ++ [s] -> PenStroke.points s = p0 :: rest ->
        fst (paintFrom c (redrawCanvas ref log))
        = Ctx.mk "#ffffff" (PenStroke.color s) (PenStroke.width s) "round" "round"
                 (map segmentBetween (consecutive (p0 :: rest)))
                 (Some (at_ (last rest p0)))).
Proof.
  intro H. unfold redrawCanvas. rewrite H.
  rewrite (flat_map_drawStroke ref canvas log H), gridFrom_rulings.
  destruct c as [fs ss lw lc lj path pos].
  cbn [app paintFrom paintOp]. rewrite paintFrom_app.
  destruct (paintFrom_rulings (Canvas.width canvas) (seq 1 (rulings (Canvas.height canvas)))
                              "#ffffff" lc lj path pos) as (path' & pos' & E).
  rewrite E. cbn [fst snd].
  destruct (paintFrom (Ctx.mk "#ffffff" "#e5e7eb" 1 lc lj path' pos')
                      (flat_map drawStrokeOps log)) as [c2 m2] eqn:E2.
  cbn [fst].
  pose proof (capJoin_after_strokes log (Ctx.mk "#ffffff" "#e5e7eb" 1 lc lj path' pos')) as [Hc Hj].
  rewrite E2 in Hc, Hj. cbn [fst Ctx.lineCap Ctx.lineJoin] in Hc, Hj.
  repeat split; try assumption.
  intros l s p0 rest El Ep. subst log.
  rewrite flat_map_app, paintFrom_app in E2. cbn [flat_map] in E2.
  rewrite app_nil_r in E2.
  apply (f_equal fst) in E2. cbn [fst] in E2. rewrite <- E2.
  rewrite (ctxAfter_drawStrokeOps _ s p0 rest Ep).
  rewrite fillStyle_after_strokes. reflexivity.
Qed.

(** ** What is on the raster *)

(** The last rectangle filled and the segments stroked since: [redrawCanvas]
    is the only place that fills, and it fills the whole canvas. *)
Definition frameStep (acc : option (Mark * list Mark)) (m : Mark) : option (Mark * list Mark) :=
  match m with
  | Filled _ _ _ _ _ => Some (m, [])
  | Segment _ _ _ _ _ _ =>
      match acc with
      | Some (f, l) => Some (f, l ++ [m])
      | None => None
      end
  end.

Definition lastFrame (ms : list Mark) : option (Mark * list Mark) :=
  fold_left frameStep ms None.

Definition isSegment (m : Mark) : Prop :=
  match m with Segment _ _ _ _ _ _ => True | Filled _ _ _ _ _ => False end.

Lemma fold_frameStep_segments (segs : list Mark) (f : Mark) (acc : list Mark) :
  Forall isSegment segs ->
  fold_left frameStep segs (Some (f, acc)) = Some (f, acc ++ segs).
Proof.
  intro H. revert acc. induction H as [|m segs Hm _ IH]; intro acc.
  - cbn. rewrite app_nil_r. reflexivity.
  - destruct m; [contradiction|]. cbn [fold_left frameStep].
    rewrite IH, <- app_assoc. reflexivity.
Qed.

Lemma lastFrame_fill (pre segs : list Mark) (style : string) (x y w h : Q) :
  Forall isSegment segs ->
  lastFrame (pre ++ Filled style x y w h :: segs) = Some (Filled style x y w h, segs).
Proof.
  intro H. unfold lastFrame. rewrite fold_left_app. cbn [fold_left frameStep].
  apply (fold_frameStep_segments segs _ [] H).
Qed.

Lemma redraw_marks_are_segments (c : Ctx.t) (w : Z) (ks : list nat) (log : list PenStroke.t) :
  Forall isSegment (map (rulingMark c w) ks ++ flat_map strokeMarks log).
Proof.
  apply Forall_app. split; apply Forall_forall; intros m Hm.
  - apply in_map_iff in Hm. destruct Hm as (k & <- & _). exact I.
  - apply in_flat_map in Hm. destruct Hm as (s & _ & Hm).
    unfold strokeMarks in Hm. apply in_map_iff in Hm. destruct Hm as (ab & <- & _). exact I.
Qed.

(** A handler that leaves a different log has replaced the [strokes] array,
    so the effect of the next render redraws. *)
Lemma log_change_sets_flag (e : Event) (st : State) :
  strokes (next (handle e st)) <> strokes st -> strokesChanged (handle e st) = true.
Proof.
  destruct e; unfold handle, startDrawing, draw, handleTouchStart,
    handleTouchMove, handleTouchEnd, stopDrawing, handleUndo, handleRedo,
    handleZoomIn, handleZoomOut, handleToolChange, handleClear, penFeed,
    onNewStroke, onWindowResize, setupEffect, cleanupEffect, resizeCanvas,
    pushToCurrentStroke;
  repeat match goal with
         | |- context [if ?b then _ else _] => destruct b
         | |- context [match ?x with _ => _ end] =>
             match type of x with
             | option _ => destruct x
             | prod _ _ => destruct x
             | Callback => destruct x
             end
         end;
  cbn; intro H; try reflexivity; contradiction H; reflexivity.
Qed.

Lemma log_change_redraws (e : Event) (st : State) :
  strokes (fst (step e st)) <> strokes st ->
  snd (step e st)
  = painted (handle e st)
      ++ redrawCanvas (canvasRef (fst (step e st))) (strokes (fst (step e st))).
Proof.
  intro H. unfold step, dispatch, strokesEffect in *. cbn [fst snd] in *.
  rewrite (log_change_sets_flag e st H). reflexivity.
Qed.

(** X6: whenever an event leaves a log different from the one before, and
    the canvas is mounted with its context, what is on the raster at the
    end (the last fill and everything stroked after it) is the white
    rectangle over the whole canvas, the rulings, and the segments of the
    strokes of the new log in log order, whatever the handler painted
    before and whatever state the context was in. *)
Theorem X6_raster_matches_log (e : Event) (st : State) (canvas : Canvas.t) (c : Ctx.t) :
  let st' := fst (step e st) in
  getContext (canvasRef st') = Some canvas ->
  strokes st' <> strokes st ->
  exists c',
    lastFrame (paint c (snd (step e st)))
    = Some (Filled "#ffffff" 0 0 (inject_Z (Canvas.width canvas))
                   (inject_Z (Canvas.height canvas)),
            map (rulingMark c' (Canvas.width canvas)) (seq 1 (rulings (Canvas.height canvas)))
              ++ flat_map strokeMarks (strokes st')).
Proof.
  intros st' Hc Hl. subst st'.
  rewrite (log_change_redraws e st Hl). unfold paint. rewrite paintFrom_app. cbn [snd].
  exists (fst (paintFrom c (painted (handle e st)))).
  fold (paint (fst (paintFrom c (painted (handle e st))))
              (redrawCanvas (canvasRef (fst (step e st))) (strokes (fst (step e st))))).
  rewrite (paint_redrawCanvas _ canvas _ _ Hc).
  apply lastFrame_fill, redraw_marks_are_segments.
Qed.

Lemma X6_raster_matches_log_witness :
  exists c',
    lastFrame (paint Ctx.fresh (snd (step CmdUndo (mounted [strokeA; strokeB] []))))
    = Some (Filled "#ffffff" 0 0 (inject_Z 800) (inject_Z 600),
            map (rulingMark c' 800) (seq 1 (rulings 600)) ++ flat_map strokeMarks [strokeA]).
Proof.
  apply (X6_raster_matches_log CmdUndo (mounted [strokeA; strokeB] []) demoCanvas Ctx.fresh).
  - reflexivity.
  - discriminate.
Defined.

(** ** Redrawing again *)

Lemma roundAfter_twice (log : list PenStroke.t) (before : string) :
  roundAfter log (roundAfter log before) = roundAfter log before.
Proof. unfold roundAfter. destruct (existsb drawn log); reflexivity. Qed.

Lemma rulingMark_same (c c' : Ctx.t) (w : Z) (ks : list nat) :
  Ctx.lineCap c = Ctx.lineCap c' -> Ctx.lineJoin c = Ctx.lineJoin c' ->
  map (rulingMark c w) ks = map (rulingMark c' w) ks.
Proof. intros Hc Hj. unfold rulingMark. rewrite Hc, Hj. reflexivity. Qed.

(** X7: on a mounted canvas, a full redraw that follows a full redraw of
    the same log paints the same marks again, however often it is repeated;
    and the first of them already paints those marks when the context came
    in with round caps and joins or when no stroke of the log has a point.
    (Otherwise the first differs from the later ones in the cap and join
    of the rulings only.) *)
Theorem X7_redraw_settles (ref : option Canvas.t) (canvas : Canvas.t)
        (log : list PenStroke.t) (c : Ctx.t) :
  getContext ref = Some canvas ->
  let ops := redrawCanvas ref log in
  let c1 := fst (paintFrom c ops) in
  let c2 := fst (paintFrom c1 ops) in
  paint c1 ops = paint c2 ops
  /\ ((Ctx.lineCap c = "round" /\ Ctx.lineJoin c = "round") \/ existsb drawn log = false ->
      paint c ops = paint c1 ops).
Proof.
  intros H ops c1 c2. subst ops.
  destruct (ctxAfter_redrawCanvas ref canvas log c H) as (Hc1 & Hj1 & _).
  destruct (ctxAfter_redrawCanvas ref canvas log (fst (paintFrom c (redrawCanvas ref log))) H)
    as (Hc2 & Hj2 & _).
  fold c1 in Hc1, Hj1, Hc2, Hj2. fold c2 in Hc2, Hj2.
  rewrite Hc1 in Hc2. rewrite Hj1 in Hj2. rewrite roundAfter_twice in Hc2, Hj2.
  rewrite !(paint_redrawCanvas ref canvas log _ H). split.
  - f_equal. f_equal. apply rulingMark_same; congruence.
  - intro Hround. f_equal. f_equal. apply rulingMark_same.
    + rewrite Hc1. unfold roundAfter.
      destruct Hround as [[Hr _] | Hn]; [rewrite Hr | rewrite Hn];
        destruct (existsb drawn log); reflexivity.
    + rewrite Hj1. unfold roundAfter.
      destruct Hround as [[_ Hr] | Hn]; [rewrite Hr | rewrite Hn];
        destruct (existsb drawn log); reflexivity.
Qed.

Lemma X7_redraw_settles_witness :
  paint Ctx.fresh (redrawCanvas (Some demoCanvas) [PenStroke.mk [] "#000000" 2 "1"])
  = paint (fst (paintFrom Ctx.fresh (redrawCanvas (Some demoCanvas) [PenStroke.mk [] "#000000" 2 "1"])))
          (redrawCanvas (Some demoCanvas) [PenStroke.mk [] "#000000" 2 "1"]).
Proof.
  apply (proj2 (X7_redraw_settles (Some demoCanvas) demoCanvas
                  [PenStroke.mk [] "#000000" 2 "1"] Ctx.fresh eq_refl)).
  right. reflexivity.
Defined.

(** On a fresh context the first redraw of a log with a drawn stroke does
    differ from the second: butt caps on the rulings, then round ones. *)
Example first_redraw_differs :
  let canvas := Canvas.mk 100 50 0 0 true None in
  paint Ctx.fresh (redrawCanvas (Some canvas) [strokeB])
  <> paint (fst (paintFrom Ctx.fresh (redrawCanvas (Some canvas) [strokeB])))
           (redrawCanvas (Some canvas) [strokeB]).
Proof. vm_compute. intro H. discriminate H. Qed.

(** ** The incremental draw *)

Lemma consecutive_snoc {A} (p0 : A) (rest : list A) (p : A) :
  consecutive ((p0 :: rest) ++ [p]) = consecutive (p0 :: rest) ++ [(last rest p0, p)].
Proof.
  revert p0. induction rest as [|q rest IH]; intro p0; [reflexivity|].
  change ((p0 :: q :: rest) ++ [p]) with (p0 :: ((q :: rest) ++ [p])).
  change (consecutive (p0 :: (q :: rest) ++ [p]))
    with ((p0, q) :: consecutive ((q :: rest) ++ [p])).
  rewrite IH, (last_cons_default rest q p0). reflexivity.
Qed.

(** X8: during a drag, with the context as the last full redraw left it
    and the last stroke of the log having points, the canvas calls of
    [draw] itself (before the redraw that follows) stroke, in the active
    colour and width with round caps and joins, the segments of that last
    stroke and one more from its last point to the new point: the segments
    of the stroke as it is after the move. *)
Theorem X8_incremental_draw (st : State) (rect : Canvas.t) (l : list PenStroke.t)
        (s : PenStroke.t) (p0 : Point.t) (rest : list Point.t)
        (cx cy : Q) (now : Z) (c : Ctx.t) :
  isDrawing st = true -> tool st <> hand ->
  getContext (canvasRef st) = Some rect ->
  strokes st = l ++ [s] ->
  PenStroke.points s = p0 :: rest ->
  let p := Point.mk ((cx - Canvas.left rect) / scale st)
                    ((cy - Canvas.top rect) / scale st) 1 now in
  let c1 := fst (paintFrom c (redrawCanvas (canvasRef st) (strokes st))) in
  paint c1 (painted (draw cx cy now st))
  = map (fun ab => Segment (at_ (fst ab)) (at_ (snd ab))
                           (if isErasing st then "#ffffff" else color st)
                           (if isErasing st then lineWidth st * 3 else lineWidth st)
                           "round" "round")
        (consecutive (PenStroke.points s ++ [p])).
Proof.
  intros Hd Ht Hc Hs Hp p c1.
  destruct (ctxAfter_redrawCanvas (canvasRef st) rect (strokes st) c Hc) as (_ & _ & Hctx).
  specialize (Hctx l s p0 rest Hs Hp). subst c1. rewrite Hctx.
  apply Tool_eqb_neq in Ht.
  unfold draw, pushToCurrentStroke. rewrite Hd, Ht, Hc, Hs, lastOf_snoc.
  cbn [painted start emit updateStrokes installStrokes app negb orb].
  unfold paint. cbn [paintFrom paintOp app snd].
  rewrite app_nil_r, Hp, consecutive_snoc, !map_app, map_map. reflexivity.
Qed.

Lemma X8_incremental_draw_witness :
  paint (fst (paintFrom Ctx.fresh (redrawCanvas (Some demoCanvas) [strokeB; strokeA])))
        (painted (draw 30 25 1048 dragging))
  = [Segment (10, 10) (20, 10) "#000000" 2 "round" "round";
     Segment (20, 10) (20, 20) "#000000" 2 "round" "round";
     Segment (20, 20) ((30 - 0) / 1, (25 - 0) / 1) "#000000" 2 "round" "round"].
Proof.
  refine (X8_incremental_draw dragging demoCanvas [strokeB] strokeA p10_10 [p20_10; p20_20]
            30 25 1048 Ctx.fresh eq_refl _ eq_refl eq_refl eq_refl).
  discriminate.
Defined.

(** ** Clear, new strokes and the redo stack *)

Lemma step_clear_mounted (st : State) (canvas : Canvas.t) :
  canvasRef st = Some canvas ->
  fst (step CmdClear st) = withStrokes [] st.
Proof.
  intro H. unfold step, dispatch, handle, handleClear. rewrite H. reflexivity.
Qed.

(** X13: with the canvas mounted, clear cannot be undone: an undo right
    after it changes nothing.  The strokes undone before the clear are
    still on the redo stack, and a redo right after the clear puts the last
    of them alone into the log. *)
Theorem X13_clear_then_undo_redo (st : State) (canvas : Canvas.t) :
  canvasRef st = Some canvas ->
  let cleared := fst (step CmdClear st) in
  step CmdUndo cleared = (cleared, [])
  /\ redoStack cleared = redoStack st
  /\ (forall r s, redoStack st = r ++ [s] ->
        strokes (fst (step CmdRedo cleared)) = [s]
        /\ redoStack (fst (step CmdRedo cleared)) = r).
Proof.
  intros H cleared. subst cleared. rewrite (step_clear_mounted st canvas H).
  split; [apply step_undo_nil; reflexivity|].
  split; [reflexivity|].
  intros r s E.
  rewrite (step_redo_snoc (withStrokes [] st) r s E). split; reflexivity.
Qed.

Lemma X13_clear_then_undo_redo_witness :
  strokes (fst (step CmdRedo (fst (step CmdClear (mounted [strokeA] [strokeB]))))) = [strokeB].
Proof.
  apply (proj2 (proj2 (X13_clear_then_undo_redo (mounted [strokeA] [strokeB]) demoCanvas eq_refl))
               [] strokeB eq_refl).
Defined.

(** X20: once a press has begun a stroke (canvas mounted, tool not hand for
    the mouse, finger for touch), a redo changes nothing: the strokes undone
    before are gone for good.  A stroke arriving from the pen feed does not
    do that: the redo stack is kept, and a redo after it appends the last
    undone stroke behind the pen-feed stroke. *)
Theorem X20_redo_after_new_stroke (st : State) (rect : Canvas.t)
        (cx cy : Q) (now now' : Z) (f : PenStroke.t) :
  getContext (canvasRef st) = Some rect ->
  (tool st <> hand ->
     let pressed := fst (step (MouseDown cx cy now now') st) in
     step CmdRedo pressed = (pressed, []))
  /\ (tool st = finger ->
     let touched := fst (step (TouchStart cx cy now now') st) in
     step CmdRedo touched = (touched, []))
  /\ (penCallback st = Some OnNewStroke ->
     forall r s, redoStack st = r ++ [s] ->
     strokes (run [PenFeed f; CmdRedo] st) = strokes st ++ [f; s]
     /\ redoStack (run [PenFeed f; CmdRedo] st) = r).
Proof.
  intro Hc. split; [|split].
  - intros Ht pressed. subst pressed.
    rewrite (step_mouseDown st rect cx cy now now' Ht Hc).
    apply step_redo_nil. reflexivity.
  - intros Ht touched. subst touched.
    rewrite (step_touchStart st rect cx cy now now' Ht Hc).
    apply step_redo_nil. reflexivity.
  - intros Hp r s E. cbn [run]. rewrite (step_penFeed st f Hp). cbn [fst].
    rewrite (step_redo_snoc (withStrokes (strokes st ++ [f]) st) r s E).
    cbn. rewrite <- app_assoc. split; reflexivity.
Qed.

Lemma X20_redo_after_new_stroke_witness :
  strokes (fst (step CmdRedo (fst (step (MouseDown 10 10 1000 1000) (mounted [strokeA] [strokeB])))))
  = strokes (fst (step (MouseDown 10 10 1000 1000) (mounted [strokeA] [strokeB]))).
Proof.
  rewrite (proj1 (X20_redo_after_new_stroke (mounted [strokeA] [strokeB]) demoCanvas
                    10 10 1000 1000 strokeB eq_refl)).
  - reflexivity.
  - discriminate.
Defined.

(** * The page that hosts the canvas: [src/pages/Index.tsx] *)

Module IndexPage.

(** The part of the page's state that [handlePenData] touches.  The pen
    status widget hands over data of type [any]; only its [type] field is
    read, kept here as the string it holds, if any. *)
Record State := mkState {
  penData : option (option string);      (* useState<any>(null): the data's [type] *)
  showUtilityPanels : bool
}.

Definition initialState : State := mkState None false.

(** A call of [analyticsService.trackFeatureUsage('pen', FeatureAction.CREATE,
    { first_stroke: true })]. *)
Inductive Tracked := FirstStroke.

(** [handlePenData] *)
Definition handlePenData (dataType : option string) (st : State) : State * list Tracked :=
  let st1 := mkState (Some dataType) (showUtilityPanels st) in
  match dataType with
  | Some t =>
      if String.eqb t "stroke" && negb (showUtilityPanels st)
      then (mkState (Some dataType) true, [FirstStroke])     (* Track first stroke *)
      else (st1, [])
  | None => (st1, [])
  end.

(** The state and the analytics calls after a sequence of pen data, each
    handled by the handler of the render that follows the one before. *)
Fixpoint feed (ds : list (option string)) (st : State) : State * list Tracked :=
  match ds with
  | [] => (st, [])
  | d :: ds' =>
      let (st1, t1) := handlePenData d st in
      let (st2, t2) := feed ds' st1 in
      (st2, t1 ++ t2)
  end.

Definition isStroke (d : option string) : bool :=
  match d with Some t => String.eqb t "stroke" | None => false end.

End IndexPage.

Lemma IndexPage_feed_cons (d : option string) (ds : list (option string))
      (st : IndexPage.State) :
  IndexPage.feed (d :: ds) st
  = (fst (IndexPage.feed ds (fst (IndexPage.handlePenData d st))),
     snd (IndexPage.handlePenData d st)
       ++ snd (IndexPage.feed ds (fst (IndexPage.handlePenData d st)))).
Proof.
  cbn [IndexPage.feed]. destruct (IndexPage.handlePenData d st) as [st1 t1].
  cbn [fst snd]. destruct (IndexPage.feed ds st1). reflexivity.
Qed.

Lemma IndexPage_feed_shown (ds : list (option string)) (st : IndexPage.State) :
  IndexPage.showUtilityPanels st = true ->
  IndexPage.showUtilityPanels (fst (IndexPage.feed ds st)) = true
  /\ snd (IndexPage.feed ds st) = [].
Proof.
  revert st. induction ds as [|d ds IH]; intros st H; [auto|].
  rewrite IndexPage_feed_cons. cbn [fst snd].
  assert (E : IndexPage.showUtilityPanels (fst (IndexPage.handlePenData d st)) = true
              /\ snd (IndexPage.handlePenData d st) = []).
  { unfold IndexPage.handlePenData. rewrite H.
    destruct d as [t|]; [rewrite andb_false_r|]; auto. }
  destruct E as [E1 E2]. rewrite E2. apply IH, E1.
Qed.

(** X16: starting with the utility panels hidden, after any sequence of pen
    data the panels are shown exactly when some datum had type "stroke",
    and the "first stroke" analytics call has been made exactly once in
    that case and never otherwise. *)
Theorem X16_first_stroke_tracked_once (ds : list (option string)) :
  IndexPage.showUtilityPanels (fst (IndexPage.feed ds IndexPage.initialState))
    = existsb IndexPage.isStroke ds
  /\ snd (IndexPage.feed ds IndexPage.initialState)
    = (if existsb IndexPage.isStroke ds then [IndexPage.FirstStroke] else []).
Proof.
  unfold IndexPage.initialState. generalize (@None (option string)).
  induction ds as [|d ds IH]; intro pd; [auto|].
  rewrite IndexPage_feed_cons. cbn [existsb].
  unfold IndexPage.handlePenData. cbn [IndexPage.showUtilityPanels negb].
  destruct d as [t|]; cbn [IndexPage.isStroke].
  - rewrite andb_true_r. destruct (String.eqb t "stroke"); cbn [orb fst snd].
    + destruct (IndexPage_feed_shown ds (IndexPage.mkState (Some (Some t)) true) eq_refl)
        as [H1 H2].
      rewrite H1, H2. auto.
    + apply IH.
  - cbn [orb fst snd]. apply IH.
Qed.

(** * The scanned-note view: [src/components/scanner/ScannedNoteView.tsx] *)

Module ScannedNote.

(** A value that is a string or missing ([undefined], [null]); the legacy
    [note] prop is typed [any], and its fields are read as such values. *)
Definition value := option string.

(** JavaScript truthiness of such a value: a string is truthy unless empty. *)
Definition truthy (v : value) : bool :=
  match v with
  | Some s => negb (String.eqb s "")
  | None => false
  end.

(** [a || b] *)
Definition or (a b : value) : value := if truthy a then a else b.

(** [note.content] *)
Record Content := mkContent { c_imageData : value; c_ocrText : value }.

(** The legacy [note] prop. *)
Record Note := mkNote {
  n_imageData : value;
  n_content : option Content;
  n_id : value;
  n_ocrText : value;
  n_ocrLanguage : value
}.

Record Props := mkProps {
  imageData : value;
  pageId : value;
  readOnly : bool;
  note : option Note
}.

(** [currentPage] of the notebook context, as far as it is read here. *)
Record Page := mkPage { p_ocrText : value; p_ocrLanguage : value }.

(** [obj?.field] *)
Definition opt {A} (o : option A) (field : A -> value) : value :=
  match o with Some a => field a | None => None end.

Definition noteContent (n : option Note) : option Content :=
  match n with Some a => n_content a | None => None end.

(** [imageData || (note?.imageData || note?.content?.imageData)] *)
Definition effectiveImageData (p : Props) : value :=
  or (imageData p)
     (or (opt (note p) n_imageData) (opt (noteContent (note p)) c_imageData)).

(** [pageId || note?.id] *)
Definition effectivePageId (p : Props) : value :=
  or (pageId p) (opt (note p) n_id).

(** A string out of a value that is known to end in a string literal. *)
Definition text (v : value) : string := match v with Some s => s | None => "" end.

Record State := mkState {
  showOcrPanel : bool;
  ocrText : string;
  isProcessing : bool;
  isEditing : bool;
  language : string
}.

(** The [useState] initial values. *)
Definition initialState (p : Props) (currentPage : option Page) : State :=
  mkState false
          (text (or (or (or (opt currentPage p_ocrText) (opt (note p) n_ocrText))
                        (opt (noteContent (note p)) c_ocrText))
                    (Some "")))
          false false
          (text (or (or (opt currentPage p_ocrLanguage) (opt (note p) n_ocrLanguage))
                    (Some "eng"))).

(** A call into the notebook context. *)
Inductive Call :=
| PerformOCR (pageId language : string)
| UpdateOCRText (pageId ocrText language : string).

(** [handleRunOCR] up to its [await]: the state with the queued update and
    the call made, if any. *)
Definition handleRunOCR_begin (p : Props) (st : State) : State * option Call :=
  if negb (truthy (effectivePageId p)) then (st, None)
  else (mkState (showOcrPanel st) (ocrText st) true (isEditing st) (language st),
        Some (PerformOCR (text (effectivePageId p)) (language st))).

(** [handleRunOCR] from its [await] on: [Some text] when [performOCR]
    resolves, [None] when it rejects; [finally] runs in both cases. *)
Definition handleRunOCR_settle (outcome : option string) (st : State) : State :=
  match outcome with
  | Some t => mkState true t false false (language st)
  | None => mkState (showOcrPanel st) (ocrText st) false (isEditing st) (language st)
  end.

(** [handleSaveText], in the same two parts. *)
Definition handleSaveText_begin (p : Props) (st : State) : State * option Call :=
  if negb (truthy (effectivePageId p)) then (st, None)
  else (mkState (showOcrPanel st) (ocrText st) true (isEditing st) (language st),
        Some (UpdateOCRText (text (effectivePageId p)) (ocrText st) (language st))).

Definition handleSaveText_settle (resolved : bool) (st : State) : State :=
  if resolved
  then mkState (showOcrPanel st) (ocrText st) false false (language st)
  else mkState (showOcrPanel st) (ocrText st) false (isEditing st) (language st).



(** The early return [if (!effectiveImageData)]: "No image data available". *)
Definition rendersNoImage (p : Props) : bool := negb (truthy (effectiveImageData p)).

(** The first truthy value of a list, if there is one. *)
Fixpoint firstTruthy (vs : list value) : option string :=
  match vs with
  | [] => None
  | v :: vs' => if truthy v then v else firstTruthy vs'
  end.

End ScannedNote.

Lemma ScannedNote_truthy_some (v : ScannedNote.value) :
  ScannedNote.truthy v = true -> exists s, v = Some s /\ s <> "".
Proof.
  destruct v as [s|]; cbn; [|discriminate].
  intro H. exists s. split; [reflexivity|].
  intro E. subst s. discriminate H.
Qed.

Lemma ScannedNote_or3 (a b c : ScannedNote.value) :
  (negb (ScannedNote.truthy (ScannedNote.or a (ScannedNote.or b c))) = true
   <-> ScannedNote.firstTruthy [a; b; c] = None)
  /\ (ScannedNote.truthy (ScannedNote.or a (ScannedNote.or b c)) = true ->
      ScannedNote.or a (ScannedNote.or b c) = ScannedNote.firstTruthy [a; b; c]).
Proof.
  unfold ScannedNote.or. cbn [ScannedNote.firstTruthy].
  destruct (ScannedNote.truthy a) eqn:Ea.
  - rewrite Ea. destruct (ScannedNote_truthy_some _ Ea) as (s & -> & _).
    split; [split; discriminate | reflexivity].
  - destruct (ScannedNote.truthy b) eqn:Eb.
    + rewrite Eb. destruct (ScannedNote_truthy_some _ Eb) as (s & -> & _).
      split; [split; discriminate | reflexivity].
    + destruct (ScannedNote.truthy c) eqn:Ec.
      * destruct (ScannedNote_truthy_some _ Ec) as (s & -> & _).
        split; [split; discriminate | reflexivity].
      * split; [split; reflexivity | discriminate].
Qed.

(** X17: the image shown is the first non-empty one of the [imageData]
    prop, the legacy note's [imageData] and the legacy note's
    [content.imageData] (an empty string counts as missing), and the view
    renders "No image data available" exactly when there is none; the page
    id used for OCR is, likewise, the first non-empty one of the [pageId]
    prop and the legacy note's [id]. *)
Theorem X17_effective_props (p : ScannedNote.Props) :
  let images := [ScannedNote.imageData p;
                 ScannedNote.opt (ScannedNote.note p) ScannedNote.n_imageData;
                 ScannedNote.opt (ScannedNote.noteContent (ScannedNote.note p))
                                 ScannedNote.c_imageData] in
  let ids := [ScannedNote.pageId p; ScannedNote.opt (ScannedNote.note p) ScannedNote.n_id] in
  (ScannedNote.rendersNoImage p = true <-> ScannedNote.firstTruthy images = None)
  /\ (ScannedNote.rendersNoImage p = false ->
      ScannedNote.effectiveImageData p = ScannedNote.firstTruthy images)
  /\ (ScannedNote.truthy (ScannedNote.effectivePageId p) = true ->
      ScannedNote.effectivePageId p = ScannedNote.firstTruthy ids)
  /\ (ScannedNote.truthy (ScannedNote.effectivePageId p) = false <->
      ScannedNote.firstTruthy ids = None).
Proof.
  cbv zeta. unfold ScannedNote.rendersNoImage, ScannedNote.effectiveImageData,
    ScannedNote.effectivePageId.
  split; [|split; [|split]].
  - apply ScannedNote_or3.
  - intro H. apply ScannedNote_or3.
    apply Bool.negb_false_iff in H. exact H.
  - intro H.
    destruct (ScannedNote_or3 (ScannedNote.pageId p)
                (ScannedNote.opt (ScannedNote.note p) ScannedNote.n_id) None) as (_ & H3).
    unfold ScannedNote.or in *. cbn [ScannedNote.firstTruthy ScannedNote.truthy] in *.
    destruct (ScannedNote.truthy (ScannedNote.pageId p)) eqn:Ea; [reflexivity|].
    destruct (ScannedNote.truthy (ScannedNote.opt (ScannedNote.note p) ScannedNote.n_id)) eqn:Eb;
      [reflexivity | congruence].
  - unfold ScannedNote.or. cbn [ScannedNote.firstTruthy].
    destruct (ScannedNote.truthy (ScannedNote.pageId p)) eqn:Ea.
    + rewrite Ea. destruct (ScannedNote_truthy_some _ Ea) as (s & -> & _).
      split; discriminate.
    + destruct (ScannedNote.truthy (ScannedNote.opt (ScannedNote.note p) ScannedNote.n_id)) eqn:Eb.
      * destruct (ScannedNote_truthy_some _ Eb) as (s & -> & _). split; discriminate.
      * split; reflexivity.
Qed.

Lemma X17_effective_props_witness :
  ScannedNote.effectiveImageData
    (ScannedNote.mkProps (Some "") None false
       (Some (ScannedNote.mkNote None (Some (ScannedNote.mkContent (Some "data:png") None))
                                 (Some "p1") None None)))
  = Some "data:png".
Proof.
  apply (proj1 (proj2 (X17_effective_props
    (ScannedNote.mkProps (Some "") None false
       (Some (ScannedNote.mkNote None (Some (ScannedNote.mkContent (Some "data:png") None))
                                 (Some "p1") None None)))))).
  reflexivity.
Defined.

(** X18: without a usable page id, running OCR and saving the text do
    nothing and call nothing.  With one, and nothing in progress before,
    running OCR calls [performOCR] with that id and the language selected
    at that moment and shows the view as processing; if the call fails the
    view is back exactly as it was, and if it yields a text the view shows
    that text in the open panel, not editing, not processing.  Saving
    calls [updateOCRText] with the id, the text and the language; a failed
    save leaves the view exactly as it was, edit mode and text included,
    and a successful one only leaves edit mode. *)
Theorem X18_ocr_run_and_save (p : ScannedNote.Props) (st : ScannedNote.State) (t : string) :
  (ScannedNote.truthy (ScannedNote.effectivePageId p) = false ->
     ScannedNote.handleRunOCR_begin p st = (st, None)
     /\ ScannedNote.handleSaveText_begin p st = (st, None))
  /\ (ScannedNote.truthy (ScannedNote.effectivePageId p) = true ->
      ScannedNote.isProcessing st = false ->
      let id := ScannedNote.text (ScannedNote.effectivePageId p) in
      let running := fst (ScannedNote.handleRunOCR_begin p st) in
      let saving := fst (ScannedNote.handleSaveText_begin p st) in
      snd (ScannedNote.handleRunOCR_begin p st)
        = Some (ScannedNote.PerformOCR id (ScannedNote.language st))
      /\ ScannedNote.isProcessing running = true
      /\ ScannedNote.handleRunOCR_settle None running = st
      /\ ScannedNote.handleRunOCR_settle (Some t) running
         = ScannedNote.mkState true t false false (ScannedNote.language st)
      /\ snd (ScannedNote.handleSaveText_begin p st)
         = Some (ScannedNote.UpdateOCRText id (ScannedNote.ocrText st) (ScannedNote.language st))
      /\ ScannedNote.handleSaveText_settle false saving = st
      /\ ScannedNote.handleSaveText_settle true saving
         = ScannedNote.mkState (ScannedNote.showOcrPanel st) (ScannedNote.ocrText st)
                               false false (ScannedNote.language st)).
Proof.
  unfold ScannedNote.handleRunOCR_begin, ScannedNote.handleSaveText_begin.
  split; intro H; rewrite H; cbn [negb]; [auto|].
  intro Hp. destruct st as [panel txt proc edit lang]. cbn in Hp. subst proc.
  cbn. repeat split.
Qed.

Lemma X18_ocr_run_and_save_witness :
  ScannedNote.handleRunOCR_settle None
    (fst (ScannedNote.handleRunOCR_begin
            (ScannedNote.mkProps (Some "img") (Some "p1") false None)
            (ScannedNote.mkState true "old text" false true "eng")))
  = ScannedNote.mkState true "old text" false true "eng".
Proof.
  apply (proj2 (X18_ocr_run_and_save
                  (ScannedNote.mkProps (Some "img") (Some "p1") false None)
                  (ScannedNote.mkState true "old text" false true "eng") "")
               eq_refl eq_refl).
Defined.


